(** * tiny-c-libs: the control-flow runtime (libdefer and libexcept)

    A shallow embedding of the two setjmp/longjmp based libraries of the
    repository:

    - [Defer]  : defer.h / defer.c, the per-thread stack of cleanup frames with
                 [defer], [panic] and [recover];
    - [Except] : except.h / except.c, the try/catch/finally macros and the
                 throw algorithm.

    Conventions shared by both modules.

    - Thread-local variables of the C code are fields of an explicit state
      record that every operation takes and returns.
    - A function that does not return to its caller ([longjmp], [abort],
      [thrd_exit]) returns an [outcome] other than the normal one; callers
      propagate it.
    - A function pointer is an address ([nat]); [0] is [NULL].  What the
      pointed-to user code does is either recorded as an event (handlers of
      libdefer) or taken from a code table (hooks of libexcept).
    - Output to [stderr] is an event of the state's log.
    - What the macros of libexcept leave to the C implementation (the padding
      bytes of an object that is copied by value, the value of a local
      variable that was changed between [sigsetjmp] and [siglongjmp]) is a
      parameter of the model; statements hold for every implementation
      unless they say otherwise. *)

From Stdlib Require Import ZArith Lia Ascii String.
From Stdlib.Strings Require Import Byte.
From stdpp Require Import base tactics option list strings.

Open Scope Z_scope.
Open Scope nat_scope.

(** Characters that a Rocq string literal cannot hold directly. *)
Definition nl : string := String (ascii_of_nat 10) EmptyString.
Definition dquote : string := String (ascii_of_nat 34) EmptyString.

(** A function pointer: the address of user code, [0] for [NULL]. *)
Definition fnptr := nat.
Definition NULL : fnptr := 0.

(* ===================================================================== *)
(** * libdefer *)
(* ===================================================================== *)

Module Defer.

(** [#define DEFER_MAX 16] *)
Definition DEFER_MAX : nat := 16.

(** What [setjmp] stores in a [jmp_buf]: the program point of the
    [recover()] call that filled it. *)
Definition site := nat.

(** One slot of [defer_frame_t.entries]. [arg] is the [void*] argument. *)
Record entry := Entry { cleanup : fnptr; arg : Z }.

(** [defer_frame_t].  The field [link] of the C struct is not a field here:
    the thread's frames are kept as a list, innermost first, and the link of a
    frame is the tail of the list after it.  [count] is an [int] in C; it
    stays within [0, DEFER_MAX] in every frame the API builds, so it is a
    [nat] here and its decrement below zero is treated as an error of the
    program, see [run_cleanups].  [context = None] is a [jmp_buf] that no
    [setjmp] has filled. *)
Record defer_frame_t := Frame {
  entries : list entry;
  context : option site;
  count : nat;
  can_recover : bool;
  ok : bool
}.

Inductive event :=
  | Called (handler : fnptr) (a : Z)   (* a cleanup handler was invoked *)
  | Stderr (msg : string).             (* text written to stderr *)

(** The thread-local state: [__defer_frame_current] (the empty list is
    [NULL]) and what the thread has done so far that can be observed. *)
Record thread := Thread {
  __defer_frame_current : list defer_frame_t;
  log : list event
}.

(** How a call ends. *)
Inductive outcome (A : Type) :=
  | Returned (a : A)                   (* normal return *)
  | Longjmp (target : site) (val : Z)  (* longjmp: [recover()] at [target] returns [val] *)
  | Aborted                            (* abort(): the process is terminated *)
  | ThreadExited (status : Z)          (* thrd_exit(status): the calling thread ends *)
  | Undefined.                         (* undefined behaviour in C *)
Arguments Returned {A} a.
Arguments Longjmp {A} target val.
Arguments Aborted {A}.
Arguments ThreadExited {A} status.
Arguments Undefined {A}.

Inductive defer_msg_t :=
  | DEFER_FRAME_ALLOC_FAILURE
  | DEFER_FRAME_OVERFLOW
  | DEFER_BACKTRACE_FAILURE
  | DEFER_BACKTRACE_NOTSUPP
  | DEFER_TSS_FAILURE
  | DEFER_ATEXIT_FAILURE.

Definition defer_message (kind : defer_msg_t) : string :=
  match kind with
  | DEFER_FRAME_ALLOC_FAILURE => "Could not allocate defer frame" ++ nl
  | DEFER_FRAME_OVERFLOW => "Tried to defer more than DEFER_MAX handlers" ++ nl
  | DEFER_BACKTRACE_FAILURE => "Backtrace generation failed" ++ nl
  | DEFER_BACKTRACE_NOTSUPP => "Backtrace not supported" ++ nl
  | DEFER_ATEXIT_FAILURE => "Could not register atexit() handler" ++ nl
  | DEFER_TSS_FAILURE => "TSS registration failed" ++ nl
  end%string.

Definition fputs_stderr (msg : string) (t : thread) : thread :=
  Thread (__defer_frame_current t) (log t ++ [Stderr msg]).

(** [__defer_msg]: [fputs(message, stderr)]. *)
Definition __defer_msg (kind : defer_msg_t) (t : thread) : thread :=
  fputs_stderr (defer_message kind) t.

(** [calloc(1, sizeof(defer_frame_t))]: every byte is zero. *)
Definition calloc_frame : defer_frame_t :=
  Frame (replicate DEFER_MAX (Entry NULL 0%Z)) None 0 false false.

(** [defer]:
<<
    assert(cleanup != NULL);
    if (__defer_frame_current->count == DEFER_MAX) { __defer_msg(DEFER_FRAME_OVERFLOW); abort(); }
    __defer_frame_current->entries[count].cleanup = cleanup;
    __defer_frame_current->entries[count].arg = arg;
    __defer_frame_current->count++;
    return arg;
>>
    A failed [assert] ends in [abort()].  With no current frame the first
    access dereferences [NULL]; a slot at or beyond the end of [entries] can
    only be reached with [count > DEFER_MAX] and is outside the array. *)
Definition defer (cleanup : fnptr) (arg : Z) (t : thread) : thread * outcome Z :=
  if decide (cleanup = NULL) then (t, Aborted)
  else match __defer_frame_current t with
       | [] => (t, Undefined)
       | f :: link =>
         if decide (count f = DEFER_MAX) then (__defer_msg DEFER_FRAME_OVERFLOW t, Aborted)
         else match entries f !! count f with
              | None => (t, Undefined)
              | Some _ =>
                let f' := Frame (<[count f := Entry cleanup arg]> (entries f))
                                (context f) (S (count f)) (can_recover f) (ok f) in
                (Thread (f' :: link) (log t), Returned arg)
              end
       end.

(** The loop of [__defer_frame_deregister]:
<<
    const size_t count = self->count;
    for (size_t i = 0; i < count; i++) {
        self->count--;
        self->entries[self->count].cleanup(self->entries[self->count].arg);
    }
>>
    [n] is the number of iterations left.  A handler is user code that the
    library knows nothing about: its invocation is recorded in the log and it
    is taken not to call back into libdefer.  [None] is undefined behaviour:
    an index outside [entries] or a call through [NULL]. *)
Fixpoint run_cleanups (n : nat) (self : defer_frame_t) (lg : list event)
  : option (defer_frame_t * list event) :=
  match n with
  | 0 => Some (self, lg)
  | S n' =>
    match count self with
    | 0 => None
    | S c =>
      let self' := Frame (entries self) (context self) c (can_recover self) (ok self) in
      match entries self !! c with
      | None => None
      | Some e =>
        if decide (cleanup e = NULL) then None
        else run_cleanups n' self' (lg ++ [Called (cleanup e) (arg e)])
      end
    end
  end.

(** [__defer_frame_register]: [self->link = __defer_frame_current;
    __defer_frame_current = self]. *)
Definition __defer_frame_register (self : defer_frame_t) (t : thread) : thread :=
  Thread (self :: __defer_frame_current t) (log t).

(** [__defer_frame_deregister(self)]: both callers pass
    [__defer_frame_current] for [self], which is the head of the list here.
    After the loop: [self->ok = true; __defer_frame_current = self->link].
    The frame is then out of the list (and freed by the exit hook), so its
    last value is not part of the state any more. *)
Definition __defer_frame_deregister (t : thread) : thread * outcome unit :=
  match __defer_frame_current t with
  | [] => (t, Aborted)      (* assert(self != NULL) *)
  | self :: link =>
    match run_cleanups (count self) self (log t) with
    | None => (t, Undefined)
    | Some (_, lg) => (Thread link lg, Returned tt)
    end
  end.

(** [__cyg_profile_func_enter]: runs on function entry.  [calloc_ok] tells
    whether [calloc] returned a frame. *)
Definition __cyg_profile_func_enter (calloc_ok : bool) (t : thread) : thread * outcome unit :=
  if calloc_ok then (__defer_frame_register calloc_frame t, Returned tt)
  else (__defer_msg DEFER_FRAME_ALLOC_FAILURE t, Aborted).

(** [__cyg_profile_func_exit]: runs on function exit; deregisters and frees
    the current frame. *)
Definition __cyg_profile_func_exit (t : thread) : thread * outcome unit :=
  __defer_frame_deregister t.

(** [__defer_frame_context]: marks the current frame and returns the address
    of its [context]. *)
Definition __defer_frame_context (t : thread) : option thread :=
  match __defer_frame_current t with
  | [] => None
  | f :: link =>
    Some (Thread (Frame (entries f) (context f) (count f) true (ok f) :: link) (log t))
  end.

(** [setjmp] on the current frame's [context], called at program point [s]. *)
Definition setjmp_context (s : site) (t : thread) : option thread :=
  match __defer_frame_current t with
  | [] => None
  | f :: link =>
    Some (Thread (Frame (entries f) (Some s) (count f) (can_recover f) (ok f) :: link) (log t))
  end.

(** [recover()], the macro [setjmp( *__defer_frame_context())], at program
    point [s]: the direct return of [setjmp] is [0].  (defer.h spells the
    callee [__libdefer_frame_context]; the function that defer.h declares and
    defer.c defines is [__defer_frame_context], which is what is called
    here.) *)
Definition recover (s : site) (t : thread) : thread * outcome Z :=
  match __defer_frame_context t ≫= setjmp_context s with
  | None => (t, Undefined)
  | Some t' => (t', Returned 0%Z)
  end.

(** [longjmp(env, val)] makes [setjmp] return [val], or [1] when [val] is
    [0]. *)
Definition longjmp_val (val : Z) : Z := if (val =? 0)%Z then 1%Z else val.

(** [__defer_unwind]:
<<
    while (__defer_frame_current != NULL) {
        if (__defer_frame_current->can_recover && recoverable)
            longjmp(__defer_frame_current->context, error);
        __defer_frame_deregister(__defer_frame_current);
    }
>>
    Every iteration that does not leave by [longjmp] removes the head of the
    list, so the loop is a recursion on the list of frames. *)
Fixpoint unwind_frames (error : Z) (recoverable : bool)
    (frames : list defer_frame_t) (lg : list event) : thread * outcome unit :=
  match frames with
  | [] => (Thread [] lg, Returned tt)
  | f :: link =>
    if can_recover f && recoverable then
      match context f with
      | Some s => (Thread frames lg, Longjmp s (longjmp_val error))
      | None => (Thread frames lg, Undefined)
      end
    else
      match __defer_frame_deregister (Thread frames lg) with
      | (t', Returned _) => unwind_frames error recoverable link (log t')
      | r => r
      end
  end.

Definition __defer_unwind (error : Z) (recoverable : bool) (t : thread) : thread * outcome unit :=
  unwind_frames error recoverable (__defer_frame_current t) (log t).

(** [__defer_thrd_fini]: the non-recoverable unwind. *)
Definition __defer_thrd_fini (t : thread) : thread * outcome unit :=
  __defer_unwind 0%Z false t.

(** ** Vocabulary for the statements about libdefer *)

(** The pairs a frame still has to run: slots [0 .. count-1], in
    registration order. *)
Definition pending (f : defer_frame_t) : list entry := take (count f) (entries f).

Definition call_of (e : entry) : event := Called (cleanup e) (arg e).

(** The invocations that deregistering [f] performs: its pending pairs, the
    most recently registered first. *)
Definition cleanup_calls (f : defer_frame_t) : list event := call_of <$> reverse (pending f).

(** A frame as the API builds them: [count] within the array and a handler in
    every pending slot. *)
Definition frame_wf (f : defer_frame_t) : Prop :=
  length (entries f) = DEFER_MAX ∧ count f ≤ DEFER_MAX ∧
  Forall (λ e, cleanup e ≠ NULL) (pending f).

#[global] Instance frame_wf_dec f : Decision (frame_wf f).
Proof. unfold frame_wf. apply _. Defined.

Definition entry_of (p : fnptr * Z) : entry := Entry p.1 p.2.
Definition called_of (p : fnptr * Z) : event := Called p.1 p.2.

(** The number of frames of a thread that carry the recovery mark. *)
Definition marked_count (t : thread) : nat :=
  length (filter (λ f, can_recover f = true) (__defer_frame_current t)).

(** A function body that registers the pairs [ps] one after the other; it
    stops at the first [defer] that does not return. *)
Fixpoint defer_all (ps : list (fnptr * Z)) (t : thread) : thread * outcome unit :=
  match ps with
  | [] => (t, Returned tt)
  | (h, a) :: ps' =>
    match defer h a t with
    | (t', Returned _) => defer_all ps' t'
    | (t', Longjmp s v) => (t', Longjmp s v)
    | (t', Aborted) => (t', Aborted)
    | (t', ThreadExited c) => (t', ThreadExited c)
    | (t', Undefined) => (t', Undefined)
    end
  end.

(** The frame at height [k] of the stack, counted from the outermost frame
    (height [0]).  A frame keeps its height for as long as it is linked. *)
Definition frame_at (k : nat) (t : thread) : option defer_frame_t :=
  reverse (__defer_frame_current t) !! k.

(** A frame that is well formed and, when it carries the recovery mark, has a
    context that a [setjmp] has filled. *)
Definition frame_ok (f : defer_frame_t) : Prop :=
  frame_wf f ∧ (can_recover f = true → is_Some (context f)).

(** The frame at height [k] is marked and its saved context satisfies [C]. *)
Definition marked_at (k : nat) (C : option site → Prop) (t : thread) : Prop :=
  ∃ inner f outer, __defer_frame_current t = inner ++ f :: outer ∧ length outer = k
                   ∧ can_recover f = true ∧ C (context f).

Section Panic.

(** [__defer_error_name] is a switch over the [E*] constants of the
    platform's errno.h and [__defer_error_desc] is [strerror_r]; the numeric
    values and texts belong to the platform. *)
Variable __defer_error_name : Z → string.
Variable __defer_error_desc : Z → string.

Definition panic_message (error : Z) : string :=
  ("Panic with error " ++ __defer_error_name error ++ ": "
     ++ __defer_error_desc error ++ nl)%string.

(** [panic], built without libunwind (defer.h leaves [DEFER_HAVE_LIBUNWIND]
    commented out):
<<
    assert(error != 0);
    __defer_unwind(error, true);
    fprintf(stderr, "Panic with error %s: %s\n", ...);
    __defer_msg(DEFER_BACKTRACE_NOTSUPP);
    thrd_exit(error);
>> *)
Definition panic (error : Z) (t : thread) : thread * outcome unit :=
  if decide (error = 0%Z) then (t, Aborted)
  else match __defer_unwind error true t with
       | (t', Returned _) =>
         (__defer_msg DEFER_BACKTRACE_NOTSUPP (fputs_stderr (panic_message error) t'),
          ThreadExited error)
       | r => r
       end.

(** ** The calls a thread makes, one after the other

    What a thread does with libdefer is a sequence of calls: the entry and
    exit hooks of instrumented functions and the three API functions.  A
    [panic] that is recovered leaves the thread running (at the recovery
    point), so the calls after it are executed as well; after [abort()],
    [thrd_exit] or undefined behaviour nothing more is executed. *)
Inductive op :=
  | OpEnter (calloc_ok : bool)
  | OpExit
  | OpDefer (handler : fnptr) (a : Z)
  | OpRecover (s : site)
  | OpPanic (error : Z).

Definition forget {A} (r : thread * outcome A) : thread * outcome unit :=
  match r with
  | (t, Returned _) => (t, Returned tt)
  | (t, Longjmp s v) => (t, Longjmp s v)
  | (t, Aborted) => (t, Aborted)
  | (t, ThreadExited c) => (t, ThreadExited c)
  | (t, Undefined) => (t, Undefined)
  end.

Definition exec_op (o : op) (t : thread) : thread * outcome unit :=
  match o with
  | OpEnter calloc_ok => __cyg_profile_func_enter calloc_ok t
  | OpExit => __cyg_profile_func_exit t
  | OpDefer h a => forget (defer h a t)
  | OpRecover s => forget (recover s t)
  | OpPanic error => panic error t
  end.

Definition still_running {A} (o : outcome A) : bool :=
  match o with
  | Returned _ | Longjmp _ _ => true
  | Aborted | ThreadExited _ | Undefined => false
  end.

Fixpoint exec_ops (ops : list op) (t : thread) : thread :=
  match ops with
  | [] => t
  | o :: ops' =>
    let (t', r) := exec_op o t in
    if still_running r then exec_ops ops' t' else t'
  end.

(** [o], executed in [t], is the exit of the function whose frame is at
    height [k]: the frame is deregistered and freed. *)
Definition destroys (k : nat) (o : op) (t : thread) : bool :=
  match o with
  | OpExit => bool_decide (length (__defer_frame_current t) = S k)
  | _ => false
  end.

(** [o], executed in [t], is a [recover()] in the frame at height [k]. *)
Definition recaptures (k : nat) (o : op) (t : thread) : bool :=
  match o with
  | OpRecover _ => bool_decide (length (__defer_frame_current t) = S k)
  | _ => false
  end.

(** No call of the sequence, at the point where it is executed, satisfies
    [bad]. *)
Fixpoint never (bad : op → thread → bool) (ops : list op) (t : thread) : bool :=
  match ops with
  | [] => true
  | o :: ops' =>
    negb (bad o t) &&
    (let (t', r) := exec_op o t in
     if still_running r then never bad ops' t' else true)
  end.

End Panic.

(** ** Example threads *)

Definition example_error_name : Z → string := λ _, "EINVAL"%string.
Definition example_error_desc : Z → string := λ _, "Invalid argument"%string.

(** An outer function calls [recover()] at program point [7]; the function it
    calls registers two handlers. *)
Definition recover_then_two_defers : list op :=
  [OpEnter true; OpRecover 7; OpEnter true; OpDefer 1 10%Z; OpDefer 2 20%Z].

(** An outer function calls [recover()] and so does the function it calls. *)
Definition nested_recovers : list op :=
  [OpEnter true; OpRecover 1; OpEnter true; OpRecover 2].

End Defer.

(* ===================================================================== *)
(** * libexcept *)
(* ===================================================================== *)

Module Except.

(** [#define EXCEPT_MAX_THROWABLE_SIZE 128] *)
Definition EXCEPT_MAX_THROWABLE_SIZE : nat := 128.

(** [EXIT_FAILURE] of stdlib.h. *)
Definition EXIT_FAILURE : Z := 1%Z.

Definition __EXCEPT_STAGE_TRY : Z := 0%Z.
Definition __EXCEPT_STAGE_CATCH : Z := 1%Z.
Definition __EXCEPT_STAGE_FINALLY : Z := 2%Z.
Definition __EXCEPT_STAGE_PROPAGATE : Z := 3%Z.
Definition __EXCEPT_STAGE_UNEXPECTED : Z := (-1)%Z.

(** The types [__EXCEPT_TYPE_NAME] tells apart: the scalar types of its
    [_Generic] list, and every other type under the spelling it is thrown and
    caught with. *)
Inductive ctype :=
  | Tschar | Tuchar | Tchar | Tshort | Tushort | Tint | Tuint | Tlong | Tulong
  | Tlonglong | Tulonglong | Tfloat | Tdouble | Tldbl
  | Tnamed (spelling : string).

Definition __EXCEPT_TYPE_NAME (T : ctype) : string :=
  match T with
  | Tschar => "schar" | Tuchar => "uchar" | Tchar => "char"
  | Tshort => "short" | Tushort => "ushort"
  | Tint => "int" | Tuint => "uint"
  | Tlong => "long" | Tulong => "ulong"
  | Tlonglong => "longlong" | Tulonglong => "ulonglong"
  | Tfloat => "float" | Tdouble => "double" | Tldbl => "ldbl"
  | Tnamed spelling => spelling
  end%string.

(** A block-local [jmp_buf] is known by the number it got when its try block
    was entered. *)
Definition jmp_buf := nat.

Inductive event :=
  | Stderr (msg : string)                        (* text written to stderr *)
  | Ran (label : string)                         (* user code ran *)
  | Saw (id : option string) (value : list byte) (* user code looked at the exception *).

(** The thread-local variables of except.c ([current_exception],
    [current_id], the [buffer] behind [__except_current_context]), the three
    global hooks, the number of the next [jmp_buf] and what has been observed
    so far. *)
Record state := State {
  current_exception : list byte;
  current_id : option string;
  context : option jmp_buf;
  except_on_throw : fnptr;
  except_on_unhandled : fnptr;
  except_on_unexpected : fnptr;
  next_jmp_buf : nat;
  trace : list event
}.

(** How a piece of code ends. *)
Inductive outcome :=
  | Normal                       (* control reaches the end of the code *)
  | Broke                        (* a [break] statement: leaves the innermost loop *)
  | Jumped (target : jmp_buf)    (* siglongjmp(target, 1) *)
  | ThreadExited (status : Z)    (* thrd_exit(status): the calling thread ends *)
  | Aborted                      (* abort(): the process is terminated *)
  | Undefined                    (* undefined behaviour in C *)
  | NotCompiled                  (* a static_assert fails *)
  | OutOfFuel.                   (* the model ran out of fuel *)

(** User code and library functions alike: a state transformer with an
    outcome. *)
Definition body := state → state * outcome.

(** The clauses that follow a try block, in the order they are written. *)
Inductive clause :=
  | CATCH (T : ctype) (handler : list byte → body)   (* catch (T, var) { handler var } *)
  | CATCH_ANY (handler : body)
  | FINALLY (handler : body).

(** The two places where the macros copy a thrown object by value. *)
Inductive copy_site :=
  | InThrow    (* [(T[1]){v}], the operand that [__EXCEPT_THROW] hands to [__except_throw] *)
  | InCatch.   (* [T var = *(T* )__except_current_exception()] of [__EXCEPT_CATCH] *)

(** What the macros leave to the C implementation.

    - [value_copy site T bytes] are the bytes of the object of type [T] that
      is initialised, at [site], with the value of an object whose bytes are
      [bytes].  An initialisation copies the value; what the padding bytes of
      the new object hold is unspecified.
    - [stage_after_jump began written st] is what [__except_stage] holds
      after a [siglongjmp] to the block's buffer, when the pass through the
      loop began with [began] in the variable and [written] was assigned to it
      last, [st] being the state of the thread at the jump.  The variable is
      a local without [volatile]: once it has been changed after the
      [sigsetjmp], a jump back leaves its value indeterminate.  The value is
      [written] where every store reaches the variable's memory, and [began]
      where the compiler has dropped the store of [UNEXPECTED] that precedes a
      catch or finally body (no code of the loop reads it). *)
Record implementation := Implementation {
  value_copy : copy_site → ctype → list byte → list byte;
  stage_after_jump : Z → Z → state → Z
}.

Definition set_exception (id : string) (bytes : list byte) (st : state) : state :=
  State bytes (Some id) (context st) (except_on_throw st) (except_on_unhandled st)
        (except_on_unexpected st) (next_jmp_buf st) (trace st).

Definition set_context (c : option jmp_buf) (st : state) : state :=
  State (current_exception st) (current_id st) c (except_on_throw st)
        (except_on_unhandled st) (except_on_unexpected st) (next_jmp_buf st) (trace st).

Definition set_on_throw (h : fnptr) (st : state) : state :=
  State (current_exception st) (current_id st) (context st) h
        (except_on_unhandled st) (except_on_unexpected st) (next_jmp_buf st) (trace st).

Definition set_on_unexpected (h : fnptr) (st : state) : state :=
  State (current_exception st) (current_id st) (context st) (except_on_throw st)
        (except_on_unhandled st) h (next_jmp_buf st) (trace st).

(** Entering a try block: [*__except_current_context() = &local_buffer]. *)
Definition push_context (st : state) : state :=
  State (current_exception st) (current_id st) (Some (next_jmp_buf st)) (except_on_throw st)
        (except_on_unhandled st) (except_on_unexpected st) (S (next_jmp_buf st)) (trace st).

Definition emit (es : list event) : body := λ st,
  (State (current_exception st) (current_id st) (context st) (except_on_throw st)
         (except_on_unhandled st) (except_on_unexpected st) (next_jmp_buf st)
         (trace st ++ es), Normal).

(** [b1; b2] *)
Definition seq (b1 b2 : body) : body := λ st,
  match b1 st with
  | (st1, Normal) => b2 st1
  | r => r
  end.

(** [memcpy(dst, src, n)] into the start of [dst]. *)
Definition memcpy (dst src : list byte) (n : nat) : list byte := take n src ++ drop n dst.

(** [__except_personality]: [strcmp(current_id, id) == 0].  With [current_id]
    still [NULL] the comparison reads through a null pointer. *)
Definition __except_personality (id : string) (st : state) : option bool :=
  match current_id st with
  | Some c => Some (String.eqb c id)
  | None => None
  end.

(** [__except_current_exception] *)
Definition __except_current_exception (st : state) : list byte := current_exception st.

(** [__EXCEPT_RETHROW()] is [break]. *)
Definition __EXCEPT_RETHROW : body := λ st, (st, Broke).

Section Engine.

(** The size of each type on the platform. *)
Variable sizeof : ctype → nat.

(** The C implementation the program is built with. *)
Variable impl : implementation.

(** The code behind each function pointer that is installed as a hook: what
    calling it with [current_exception] does. *)
Variable code : fnptr → body.

(** The clauses after [__EXCEPT_TRY] continue its [if ... else if] chain:
<<
    else if (stage == CATCH && error != 0 && __except_personality(name(T)))  ... catch (T, var)
    else if (stage == CATCH && error != 0)                                   ... catch_any
    else if (stage == FINALLY)                                               ... finally
>>
    [select_clause] walks that part of the chain: [Some (Some c)] is the first
    clause whose condition holds, [Some None] that none does, [None] that a
    condition could not be evaluated. *)
Fixpoint select_clause (stage error : Z) (st : state) (cs : list clause)
  : option (option clause) :=
  match cs with
  | [] => Some None
  | CATCH T h :: cs' =>
    if (stage =? __EXCEPT_STAGE_CATCH)%Z && negb (error =? 0)%Z then
      match __except_personality (__EXCEPT_TYPE_NAME T) st with
      | None => None
      | Some true => Some (Some (CATCH T h))
      | Some false => select_clause stage error st cs'
      end
    else select_clause stage error st cs'
  | CATCH_ANY h :: cs' =>
    if (stage =? __EXCEPT_STAGE_CATCH)%Z && negb (error =? 0)%Z then Some (Some (CATCH_ANY h))
    else select_clause stage error st cs'
  | FINALLY h :: cs' =>
    if (stage =? __EXCEPT_STAGE_FINALLY)%Z then Some (Some (FINALLY h))
    else select_clause stage error st cs'
  end.

(** Where one pass through the body of the stage loop ends. *)
Inductive pass :=
  | Next (stage error : Z) (st : state)    (* the end of the loop body; [stage++] follows *)
  | Again (stage error : Z) (st : state)   (* back at the [sigsetjmp] of the loop header *)
  | Leave (st : state) (o : outcome).      (* out of the block *)

(** [T var = *(T* )__except_current_exception()]: the bytes of the variable
    of a catch clause for [T]. *)
Definition catch_variable (T : ctype) (st : state) : list byte :=
  value_copy impl InCatch T (take (sizeof T) (__except_current_exception st)).

(** Code of the block ended with [o]; [stage] is what [__except_stage] holds
    if this was a jump back to the block.  A [siglongjmp] to the block's own
    buffer makes its [sigsetjmp] return [1], which the loop header stores in
    [__except_error], and the loop goes on from its test with the stage
    variable as the jump left it.  Anything else takes control out of the
    block. *)
Definition land (me : jmp_buf) (stage : Z) (st : state) (o : outcome) : pass :=
  match o with
  | Jumped b => if decide (b = me) then Again stage 1%Z st else Leave st (Jumped b)
  | Normal | Broke => Leave st Undefined   (* a noreturn function returned *)
  | _ => Leave st o
  end.

(** One pass through the body of
<<
    for (int stage = 0, error = sigsetjmp(local_buffer, 1); stage < 4; stage++)
        if (stage == PROPAGATE) {
            *__except_current_context() = old_buffer;
            if (error != 0) __except_throw(NULL, 0, NULL);
        }
        else if (stage == UNEXPECTED) __except_unexpected();
        else if (stage == TRY && error == 0) try_body
        else if ... the clauses
>>
    [rethrow] is [__except_throw(NULL, 0, NULL)] and [unexpected] is
    [__except_unexpected()].  The body of a catch clause sits in
<<
    for (stage = UNEXPECTED; stage != CATCH; stage = CATCH)
        for (T var = *(T* )__except_current_exception(); error != 0; error = 0)
>>
    and the body of a finally clause in
    [for (stage = UNEXPECTED; stage != FINALLY; stage = FINALLY)].  A [break]
    leaves the innermost of these loops.

    [changed] tells whether [__except_stage] has been assigned to since the
    [sigsetjmp] of the loop header.  After a jump back to the block the
    variable holds the value it had only if it has not been changed since the
    [sigsetjmp] (a throw out of the try body of a block that follows the
    rules); otherwise it holds what the implementation leaves in it. *)
Definition stage_pass (rethrow unexpected : body) (me : jmp_buf) (old : option jmp_buf)
    (try_body : body) (cs : list clause) (changed : bool) (stage error : Z) (st : state)
  : pass :=
  let found written st' :=
    if changed then stage_after_jump impl stage written st' else written in
  if (stage =? __EXCEPT_STAGE_PROPAGATE)%Z then
    let st1 := set_context old st in
    if negb (error =? 0)%Z then
      let (st2, o) := rethrow st1 in land me (found stage st2) st2 o
    else Next stage error st1
  else if (stage =? __EXCEPT_STAGE_UNEXPECTED)%Z then
    let (st1, o) := unexpected st in land me (found stage st1) st1 o
  else if (stage =? __EXCEPT_STAGE_TRY)%Z && (error =? 0)%Z then
    let (st1, o) := try_body st in
    match o with
    | Normal => Next stage error st1
    | Broke => Leave st1 Normal       (* leaves the stage loop itself *)
    | _ => land me (found stage st1) st1 o
    end
  else
    match select_clause stage error st cs with
    | None => Leave st Undefined
    | Some None => Next stage error st
    | Some (Some (CATCH T h)) =>
      let (st1, o) := h (catch_variable T st) st in
      match o with
      | Normal => Next __EXCEPT_STAGE_CATCH 0%Z st1
      | Broke => Next __EXCEPT_STAGE_CATCH error st1
      | _ => land me (stage_after_jump impl stage __EXCEPT_STAGE_UNEXPECTED st1) st1 o
      end
    | Some (Some (CATCH_ANY h)) =>
      let (st1, o) := h st in
      match o with
      | Normal => Next __EXCEPT_STAGE_CATCH 0%Z st1
      | Broke => Next __EXCEPT_STAGE_CATCH error st1
      | _ => land me (stage_after_jump impl stage __EXCEPT_STAGE_UNEXPECTED st1) st1 o
      end
    | Some (Some (FINALLY h)) =>
      let (st1, o) := h st in
      match o with
      | Normal => Next __EXCEPT_STAGE_FINALLY error st1
      | Broke => Next __EXCEPT_STAGE_UNEXPECTED error st1
      | _ => land me (stage_after_jump impl stage __EXCEPT_STAGE_UNEXPECTED st1) st1 o
      end
    end.

(** The stage loop, from the test [stage < 4] on; [stage++] at the end of a
    pass changes the stage variable. *)
Fixpoint stage_loop (rethrow unexpected : body) (me : jmp_buf) (old : option jmp_buf)
    (try_body : body) (cs : list clause) (fuel : nat) (changed : bool) (stage error : Z)
    (st : state) : state * outcome :=
  match fuel with
  | 0 => (st, OutOfFuel)
  | S fuel' =>
    if (stage <? 4)%Z then
      match stage_pass rethrow unexpected me old try_body cs changed stage error st with
      | Next stage' error' st' =>
        stage_loop rethrow unexpected me old try_body cs fuel' true (stage' + 1)%Z error' st'
      | Again stage' error' st' =>
        stage_loop rethrow unexpected me old try_body cs fuel' changed stage' error' st'
      | Leave st' o => (st', o)
      end
    else (st, Normal)
  end.

(** [__EXCEPT_TRY try_body clauses], with the two library calls of the macro
    as parameters:
<<
    jmp_buf local_buffer;
    jmp_buf* old_buffer = *__except_current_context();
    *__except_current_context() = &local_buffer;
    for (int stage = 0, error = sigsetjmp(local_buffer, 1); ...
>> *)
Definition try_block (rethrow unexpected : body) (fuel : nat)
    (try_body : body) (cs : list clause) : body := λ st,
  stage_loop rethrow unexpected (next_jmp_buf st) (context st) try_body cs fuel
             false __EXCEPT_STAGE_TRY 0%Z (push_context st).

Definition fprintf_stderr (msg : string) (st : state) : state := (emit [Stderr msg] st).1.

Definition unhandled_message (id : string) : string :=
  ("Unhandled exception of type " ++ dquote ++ id ++ dquote ++ nl)%string.

Definition unexpected_message (id : string) : string :=
  ("Unexpected exception of type " ++ dquote ++ id ++ dquote ++ nl)%string.

(** [__except_throw], [__except_unhandled] and [__except_unexpected] call one
    another through the try blocks they contain; [fuel] bounds the depth of
    these calls and the passes of the stage loops inside.

<<
    void __except_throw(const char* id, size_t exception_size, void* exception) {
        if (id != NULL) { memcpy(current_exception, exception, exception_size); current_id = id; }
        if (except_on_throw != NULL) {
            __EXCEPT_TRY { except_on_throw(current_exception); }
            __EXCEPT_CATCH_ANY { __except_unexpected(); }
        }
        if ( *__except_current_context() != NULL) __EXCEPT_LONGJMP( **__except_current_context(), 1);
        __except_unhandled();
    }
    void __except_unhandled() {
        if (except_on_unhandled != NULL) {
            __EXCEPT_TRY { except_on_unhandled(__except_current_exception()); }
            __EXCEPT_CATCH_ANY { __except_unexpected(); }
        }
        else fprintf(stderr, "Unhandled exception of type \"%s\"\n", current_id);
        thrd_exit(EXIT_FAILURE);
    }
    void __except_unexpected() {
        if (except_on_unexpected != NULL) {
            __EXCEPT_TRY { except_on_unexpected(current_exception); }
            __EXCEPT_CATCH_ANY { except_on_unexpected = NULL; __except_unexpected(); }
        }
        else fprintf(stderr, "Unexpected exception of type \"%s\"\n", current_id);
        thrd_exit(EXIT_FAILURE);
    }
>>
    [id = None] is the [NULL] of a rethrow.  [fprintf] of a [NULL] string
    with [%s] is undefined. *)
Fixpoint __except_throw (fuel : nat) (id : option string) (exception_size : nat)
    (exception : list byte) (st : state) {struct fuel} : state * outcome :=
  match fuel with
  | 0 => (st, OutOfFuel)
  | S fuel' =>
    let st1 := match id with
               | Some i => set_exception i (memcpy (current_exception st) exception exception_size) st
               | None => st
               end in
    let r := if decide (except_on_throw st1 = NULL) then (st1, Normal)
             else try_block (__except_throw fuel' None 0 []) (__except_unexpected fuel') fuel'
                            (code (except_on_throw st1))
                            [CATCH_ANY (__except_unexpected fuel')] st1 in
    match r with
    | (st2, Normal) =>
      match context st2 with
      | Some b => (st2, Jumped b)
      | None => __except_unhandled fuel' st2
      end
    | _ => r
    end
  end
with __except_unhandled (fuel : nat) (st : state) {struct fuel} : state * outcome :=
  match fuel with
  | 0 => (st, OutOfFuel)
  | S fuel' =>
    let r := if decide (except_on_unhandled st = NULL) then
               match current_id st with
               | Some i => (fprintf_stderr (unhandled_message i) st, Normal)
               | None => (st, Undefined)
               end
             else try_block (__except_throw fuel' None 0 []) (__except_unexpected fuel') fuel'
                            (code (except_on_unhandled st))
                            [CATCH_ANY (__except_unexpected fuel')] st in
    match r with
    | (st1, Normal) => (st1, ThreadExited EXIT_FAILURE)
    | _ => r
    end
  end
with __except_unexpected (fuel : nat) (st : state) {struct fuel} : state * outcome :=
  match fuel with
  | 0 => (st, OutOfFuel)
  | S fuel' =>
    let r := if decide (except_on_unexpected st = NULL) then
               match current_id st with
               | Some i => (fprintf_stderr (unexpected_message i) st, Normal)
               | None => (st, Undefined)
               end
             else try_block (__except_throw fuel' None 0 []) (__except_unexpected fuel') fuel'
                            (code (except_on_unexpected st))
                            [CATCH_ANY (λ st', __except_unexpected fuel' (set_on_unexpected NULL st'))]
                            st in
    match r with
    | (st1, Normal) => (st1, ThreadExited EXIT_FAILURE)
    | _ => r
    end
  end.

(** [__EXCEPT_TRY { try_body } clauses] *)
Definition __EXCEPT_TRY (fuel : nat) (try_body : body) (cs : list clause) : body :=
  try_block (__except_throw fuel None 0 []) (__except_unexpected fuel) fuel try_body cs.

(** [__EXCEPT_THROW(T, v)]: [__except_throw(name(T), sizeof(T), (T[1]){v})]
    under [static_assert(sizeof(T) <= EXCEPT_MAX_THROWABLE_SIZE)].  [v] are
    the bytes of the operand; what is handed to [__except_throw] is the
    compound literal, an object initialised with the operand's value. *)
Definition __EXCEPT_THROW (fuel : nat) (T : ctype) (v : list byte) : body := λ st,
  if decide (sizeof T ≤ EXCEPT_MAX_THROWABLE_SIZE)
  then __except_throw fuel (Some (__EXCEPT_TYPE_NAME T)) (sizeof T)
                      (value_copy impl InThrow T v) st
  else (st, NotCompiled).

(** ** The stage sequence as the description gives it (section 4.1)

    A second definition of a try block, written stage by stage after the
    description and not after the macros: TRY, then CATCH, then FINALLY, then
    PROPAGATE, with UNEXPECTED for an exception that escapes a catch or
    finally body. *)

(** A call of a [noreturn] function. *)
Definition noreturn (r : state * outcome) : state * outcome :=
  match r with
  | (st, Normal) | (st, Broke) => (st, Undefined)
  | _ => r
  end.

(** "Clauses are tested in source declaration order; the first match
    consumes the exception.  [catch_any] matches unconditionally."  The
    result is the body of the clause with its variable bound to the pending
    value. *)
Fixpoint first_matching_catch (tag : string) (cs : list clause) : option body :=
  match cs with
  | [] => None
  | CATCH T h :: cs' =>
    if String.eqb tag (__EXCEPT_TYPE_NAME T)
    then Some (λ st, h (catch_variable T st) st)
    else first_matching_catch tag cs'
  | CATCH_ANY h :: _ => Some h
  | FINALLY _ :: cs' => first_matching_catch tag cs'
  end.

Fixpoint first_finally (cs : list clause) : option body :=
  match cs with
  | [] => None
  | FINALLY h :: _ => Some h
  | _ :: cs' => first_finally cs'
  end.

(** "UNEXPECTED: reached if executing CATCH/FINALLY itself raises": what a
    catch or finally body that did not complete leads to. *)
Definition spec_escape (unexpected : body) (me : jmp_buf) (st : state) (o : outcome)
  : state * outcome :=
  match o with
  | Jumped b => if decide (b = me) then noreturn (unexpected st) else (st, Jumped b)
  | _ => (st, o)
  end.

(** "PROPAGATE: pops this try-scope off the thread-local stack; if an
    exception is still pending after CATCH/FINALLY ran, re-enters the throw
    algorithm." *)
Definition spec_propagate (rethrow : body) (old : option jmp_buf) (pending : bool) : body :=
  λ st, let st1 := set_context old st in
        if pending then noreturn (rethrow st1) else (st1, Normal).

(** "FINALLY: always executes, exactly once, regardless of whether an
    exception was pending or caught." *)
Definition spec_finally (unexpected : body) (me : jmp_buf) (cs : list clause)
    (then_ : body) : body :=
  λ st, match first_finally cs with
        | None => then_ st
        | Some h =>
          match h st with
          | (st1, Normal) => then_ st1
          | (st1, o) => spec_escape unexpected me st1 o
          end
        end.

(** "CATCH: executes only if an exception is pending and the pending type tag
    equals T's tag; the first match consumes the exception."  [rethrow()] in
    the body (a [break]) keeps the exception pending. *)
Definition spec_catch (unexpected : body) (me : jmp_buf) (cs : list clause)
    (then_ : bool → body) : body :=
  λ st, match current_id st with
        | None => (st, Undefined)
        | Some tag =>
          match first_matching_catch tag cs with
          | None => then_ true st
          | Some h =>
            match h st with
            | (st1, Normal) => then_ false st1
            | (st1, Broke) => then_ true st1
            | (st1, o) => spec_escape unexpected me st1 o
            end
          end
        end.

(** "Entry: a continuation point is captured and pushed onto the thread-local
    try-scope stack.  TRY: executes the guarded body only if no exception is
    pending when the scope is entered", which is the case at every entry.  A
    throw in the body arrives as a jump to the scope's own continuation
    point. *)
Definition spec_try (rethrow unexpected : body) (try_body : body) (cs : list clause) : body :=
  λ st,
    let me := next_jmp_buf st in
    let old := context st in
    let finish pending := spec_finally unexpected me cs (spec_propagate rethrow old pending) in
    match try_body (push_context st) with
    | (st1, Normal) => finish false st1
    | (st1, Jumped b) =>
      if decide (b = me) then spec_catch unexpected me cs finish st1 else (st1, Jumped b)
    | (st1, o) => (st1, o)
    end.

(** ** Vocabulary for the statements about libexcept *)

(** A hook as except.h asks for it: it "should just perform some logging or
    set a flag and return". *)
Definition logs_only (b : body) : Prop := ∀ st, ∃ es, b st = emit es st.

(** The state after the optional call of hook [p] inside its own
<<
    __EXCEPT_TRY { hook(current_exception); } __EXCEPT_CATCH_ANY { ... }
>>
    when the hook returns: the hook ran in a scope of its own, which has been
    left again. *)
Definition hooked (p : fnptr) (st : state) : state :=
  if decide (p = NULL) then st
  else set_context (context st) (code p (push_context st)).1.

(** The record update at the start of [__except_throw]. *)
Definition recorded (id : option string) (exception_size : nat) (exception : list byte)
    (st : state) : state :=
  match id with
  | Some i => set_exception i (memcpy (current_exception st) exception exception_size) st
  | None => st
  end.

(** Code that does not reset a type tag that is set. *)
Definition keeps_tag (b : body) : Prop :=
  ∀ st, is_Some (current_id st) → is_Some (current_id (b st).1).

Definition clause_keeps_tag (c : clause) : Prop :=
  match c with
  | CATCH _ h => ∀ e, keeps_tag (h e)
  | CATCH_ANY h => keeps_tag h
  | FINALLY h => keeps_tag h
  end.

(** At stage CATCH, with an exception of type tag [tag] pending, control
    passes over the clause: it is a finally clause or a catch clause for a
    type with another tag. *)
Definition passes_over (tag : string) (c : clause) : Prop :=
  match c with
  | CATCH T _ => String.eqb tag (__EXCEPT_TYPE_NAME T) = false
  | CATCH_ANY _ => False
  | FINALLY _ => True
  end.

(** The stage at which the body of a clause runs. *)
Definition clause_stage (c : clause) : Z :=
  match c with
  | CATCH _ _ | CATCH_ANY _ => __EXCEPT_STAGE_CATCH
  | FINALLY _ => __EXCEPT_STAGE_FINALLY
  end.

(** The body of clause [c], run in state [st], raises an exception: it ends
    in a jump to [me], the scope of its own block, which is the innermost
    one while the body runs, and leaves the state [st1]. *)
Definition raises_in (me : jmp_buf) (c : clause) (st st1 : state) : Prop :=
  match c with
  | CATCH T h => h (catch_variable T st) st = (st1, Jumped me)
  | CATCH_ANY h | FINALLY h => h st = (st1, Jumped me)
  end.

(** Wherever a catch or finally body of [cs] raises, the jump back to the
    block finds in [__except_stage] the [UNEXPECTED] that was stored before
    the body.  This holds for every implementation when no body of [cs]
    raises, and for every block when the implementation keeps the store. *)
Definition unexpected_stage_found (me : jmp_buf) (cs : list clause) : Prop :=
  ∀ c st st1, c ∈ cs → raises_in me c st st1 →
    stage_after_jump impl (clause_stage c) __EXCEPT_STAGE_UNEXPECTED st1
    = __EXCEPT_STAGE_UNEXPECTED.

(** After a jump the stage variable holds a value below the bound of the
    loop, as all the values do that the macros store in it. *)
Definition stage_in_range : Prop :=
  ∀ began written st, (began < 4)%Z → (written < 4)%Z →
    (stage_after_jump impl began written st < 4)%Z.

(** A copy by value is an object of the same size. *)
Definition keeps_size : Prop :=
  ∀ site T bytes, length (value_copy impl site T bytes) = length bytes.

(** The layout of each type on the platform: whether the byte at an offset
    belongs to the value (the other bytes are padding). *)
Variable value_byte : ctype → nat → bool.

(** Two objects of type [T] hold the same value: they have the same size
    and the same bytes wherever [T] has no padding. *)
Definition same_value (T : ctype) (a b : list byte) : Prop :=
  length a = length b ∧ ∀ i, value_byte T i = true → a !! i = b !! i.

(** What C asks of a copy by value. *)
Definition copies_values : Prop :=
  ∀ site T bytes, same_value T (value_copy impl site T bytes) bytes.

(** [try { throw(T, v); } catch (T, e) { ec; rethrow(); } finally { ef; }]
    where [ec] and [ef] stand for user code that only logs. *)
Definition catch_and_rethrow (fuel : nat) (T : ctype) (v : list byte)
    (ec ef : list event) : body :=
  __EXCEPT_TRY fuel (__EXCEPT_THROW fuel T v)
    [CATCH T (λ e, seq (emit ec) __EXCEPT_RETHROW); FINALLY (emit ef)].

End Engine.

(** The state in which a pass through the loop body ends. *)
Definition pass_state (p : pass) : state :=
  match p with
  | Next _ _ st | Again _ _ st | Leave st _ => st
  end.

(** The state after the finally clause of [cs] has run from [st], when there
    is one. *)
Definition after_finally (cs : list clause) (st : state) : state :=
  match first_finally cs with
  | Some h => (h st).1
  | None => st
  end.

(** An exception is in flight when control is on its way, by [siglongjmp],
    from a throw to the try scope that will receive it. *)
Definition in_flight (o : outcome) : bool :=
  match o with
  | Jumped _ => true
  | _ => false
  end.

(** ** Example programs (after test.c) *)

Definition example_sizeof (T : ctype) : nat :=
  match T with
  | Tschar | Tuchar | Tchar => 1
  | Tshort | Tushort => 2
  | Tint | Tuint | Tfloat => 4
  | Tlong | Tulong | Tlonglong | Tulonglong | Tdouble => 8
  | Tldbl | Tnamed _ => 16
  end.

(** The example layout: a [long double] is the x87 extended format, ten
    bytes of value in sixteen; the other types have no padding. *)
Definition example_value_byte (T : ctype) (i : nat) : bool :=
  match T with
  | Tldbl => Nat.ltb i 10
  | _ => true
  end.

(** An implementation that copies the bytes of the value and leaves zeros in
    the padding of the new object, and that drops the store of [UNEXPECTED]
    before a catch or finally body: after a jump out of such a body the stage
    variable holds the stage the pass began with. *)
Definition example_impl : implementation :=
  Implementation
    (λ _ T bytes, imap (λ i b, if example_value_byte T i then b else x00) bytes)
    (λ began _ _, began).

(** An implementation that copies every byte and keeps every store. *)
Definition plain_impl : implementation :=
  Implementation (λ _ _ bytes, bytes) (λ _ written _, written).

(** Every hook that gets installed writes one line to a log. *)
Definition example_code (p : fnptr) : body := emit [Ran "hook"].

(** A thread that has not thrown anything yet; all hooks are [NULL]. *)
Definition fresh_thread : state := State (replicate 128 x00) None None NULL NULL NULL 0 [].

(** [EINVAL] as an [int] on the example platform. *)
Definition einval : list byte := [x16; x00; x00; x00].

(** A hook whose body is [throw(int, EINVAL);].  The throw calls the
    library again, which calls the hooks that are installed at that time, and
    these are hooks of the same kind; [depth] bounds how deep the model
    follows these calls. *)
Fixpoint raising_code (sizeof : ctype → nat) (impl : implementation) (depth : nat)
    (p : fnptr) : body :=
  match depth with
  | 0 => λ st, (st, OutOfFuel)
  | S depth' =>
    __EXCEPT_THROW sizeof impl (raising_code sizeof impl depth') depth' Tint einval
  end.

(** A hook whose body is [except_on_throw = NULL; throw(int, EINVAL);]. *)
Definition uninstalling_code (sizeof : ctype → nat) (impl : implementation) (depth : nat)
    (p : fnptr) : body :=
  λ st, raising_code sizeof impl depth p (set_on_throw NULL st).

(** A thread inside one try scope. *)
Definition thread_in_scope : state := push_context fresh_thread.

(** [look e]: the catch body records the value bound to its variable and the
    type tag of the record. *)
Definition look (e : list byte) : body := λ st, emit [Saw (current_id st) e] st.

(** [test_throw]:
<<
    try { exec_try = true; throw(int, EINVAL); assert(false); }
    catch (int, e) { exec_catch = true; }
    finally { exec_finally = true; }
>> *)
Definition test_throw (fuel : nat) : body :=
  __EXCEPT_TRY example_sizeof example_impl example_code fuel
    (seq (emit [Ran "try"])
         (seq (__EXCEPT_THROW example_sizeof example_impl example_code fuel Tint einval)
              (emit [Ran "assert(false)"])))
    [CATCH Tint (λ e, seq (emit [Ran "catch"]) (look e)); FINALLY (emit [Ran "finally"])].

(** [test_no_throw]: the same block without the throw. *)
Definition test_no_throw (fuel : nat) : body :=
  __EXCEPT_TRY example_sizeof example_impl example_code fuel
    (emit [Ran "try"])
    [CATCH Tint (λ e, seq (emit [Ran "catch"]) (look e)); FINALLY (emit [Ran "finally"])].

End Except.

(* ===================================================================== *)
(** * libexcept: signals as exceptions *)
(* ===================================================================== *)

Module Sigcatch.
Import Except.

(** The numbers of signal.h that except.c uses; their values belong to the
    platform. *)
Record signal_h := SignalH {
  SIGFPE : Z; SIGBUS : Z; SIGSEGV : Z; SIGILL : Z;
  FPE_INTDIV : Z; FPE_INTOVF : Z; FPE_FLTDIV : Z; FPE_FLTOVF : Z;
  FPE_FLTUND : Z; FPE_FLTRES : Z; FPE_FLTINV : Z; FPE_FLTSUB : Z;
  BUS_ADRALN : Z; ILL_BADSTK : Z;
  SA_SIGINFO : Z
}.

(** The two fields of [siginfo_t] that the handler reads; [si_addr] is an
    address. *)
Record siginfo_t := SigInfo { si_code : Z; si_addr : Z }.

(** The five fault types of except.h, each a struct of a message pointer and
    an address. *)
Definition arithmetic_error_t : ctype := Tnamed "arithmetic_error_t".
Definition illegal_instruction_error_t : ctype := Tnamed "illegal_instruction_error_t".
Definition stack_corruption_error_t : ctype := Tnamed "stack_corruption_error_t".
Definition access_violation_t : ctype := Tnamed "access_violation_t".
Definition misaligned_access_error_t : ctype := Tnamed "misaligned_access_error_t".

(** What a signal is set to do.  [Translated flags mask] is the handler of
    this library, [__except_handle_signal], installed with these [sa_flags]
    and this [sa_mask]; [Foreign h] is any other handler. *)
Inductive disposition :=
  | SIG_DFL
  | Translated (sa_flags : Z) (sa_mask : list Z)
  | Foreign (h : fnptr).

Section Translator.

Variable sig : signal_h.
Variable sizeof : ctype → nat.
Variable impl : implementation.
Variable code : fnptr → body.

(** The bytes of a fault struct whose first member points to the string
    literal [message] and whose second member is [address]. *)
Variable object : string → Z → list byte.

(** The inner [switch (info->si_code)] of the [SIGFPE] case. *)
Definition arithmetic_message (c : Z) : string :=
  if (c =? FPE_INTDIV sig)%Z then "Integer division by zero."
  else if (c =? FPE_INTOVF sig)%Z then "Integer overflow."
  else if (c =? FPE_FLTDIV sig)%Z then "Floating point division by zero."
  else if (c =? FPE_FLTOVF sig)%Z then "Floating point overflow."
  else if (c =? FPE_FLTUND sig)%Z then "Floating point underflow."
  else if (c =? FPE_FLTRES sig)%Z then "Floating point inexact result."
  else if (c =? FPE_FLTINV sig)%Z then "Invalid floating point operation."
  else if (c =? FPE_FLTSUB sig)%Z then "Subscript out of range."
  else "Unknown arithmetic exception.".

(** [T error = { .message = message, .pc/.address = info->si_addr };
    throw(T, error);] *)
Definition throw_fault (fuel : nat) (T : ctype) (message : string) (info : siginfo_t) : body :=
  __EXCEPT_THROW sizeof impl code fuel T (object message (si_addr info)).

(** The cases of [switch (signal)] in [__except_handle_signal], from the
    last to the first.  No case ends in [break]: control that comes out of a
    case goes on into the next one. *)
Definition case_default : body := λ st, (st, Aborted).    (* abort() *)

Definition case_SIGILL (fuel : nat) (info : siginfo_t) : body :=
  seq (if (si_code info =? ILL_BADSTK sig)%Z
       then throw_fault fuel stack_corruption_error_t "Internal stack error." info
       else throw_fault fuel illegal_instruction_error_t "Illegal instruction." info)
      case_default.

Definition case_SIGSEGV (fuel : nat) (info : siginfo_t) : body :=
  seq (throw_fault fuel access_violation_t "Access violation." info)
      (case_SIGILL fuel info).

Definition case_SIGBUS (fuel : nat) (info : siginfo_t) : body :=
  seq (if (si_code info =? BUS_ADRALN sig)%Z
       then throw_fault fuel misaligned_access_error_t "Invalid address alignment." info
       else λ st, (st, Normal))
      (case_SIGSEGV fuel info).

Definition case_SIGFPE (fuel : nat) (info : siginfo_t) : body :=
  seq (throw_fault fuel arithmetic_error_t (arithmetic_message (si_code info)) info)
      (case_SIGBUS fuel info).

(** [__except_handle_signal(signal, info, context)] *)
Definition __except_handle_signal (fuel : nat) (signal : Z) (info : siginfo_t) : body :=
  if (signal =? SIGFPE sig)%Z then case_SIGFPE fuel info
  else if (signal =? SIGBUS sig)%Z then case_SIGBUS fuel info
  else if (signal =? SIGSEGV sig)%Z then case_SIGSEGV fuel info
  else if (signal =? SIGILL sig)%Z then case_SIGILL fuel info
  else case_default.

(** The fault that a signal stands for: the type that is thrown and the
    message of the thrown value; [None] for a signal the handler has no case
    for. *)
Definition fault_of (signal : Z) (info : siginfo_t) : option (ctype * string) :=
  if (signal =? SIGFPE sig)%Z then
    Some (arithmetic_error_t, arithmetic_message (si_code info))
  else if (signal =? SIGBUS sig)%Z then
    if (si_code info =? BUS_ADRALN sig)%Z
    then Some (misaligned_access_error_t, "Invalid address alignment."%string)
    else Some (access_violation_t, "Access violation."%string)
  else if (signal =? SIGSEGV sig)%Z then
    Some (access_violation_t, "Access violation."%string)
  else if (signal =? SIGILL sig)%Z then
    if (si_code info =? ILL_BADSTK sig)%Z
    then Some (stack_corruption_error_t, "Internal stack error."%string)
    else Some (illegal_instruction_error_t, "Illegal instruction."%string)
  else None.

(** The dispositions of the process, by signal number.  [sigaction] and
    [signal] are taken to succeed; except.c does not look at what they
    return. *)
Definition sigaction (signum : Z) (act : disposition) (tbl : Z → disposition)
  : Z → disposition := λ s, if decide (s = signum) then act else tbl s.

(** [except_enable_sigcatch]: [sa_flags = SA_SIGINFO], the handler of this
    library, an empty mask, for [SIGILL], [SIGFPE], [SIGSEGV], [SIGBUS]. *)
Definition except_enable_sigcatch (tbl : Z → disposition) : Z → disposition :=
  let sa := Translated (SA_SIGINFO sig) [] in
  sigaction (SIGBUS sig) sa
    (sigaction (SIGSEGV sig) sa
       (sigaction (SIGFPE sig) sa
          (sigaction (SIGILL sig) sa tbl))).

(** [except_disable_sigcatch]: [signal(..., SIG_DFL)] for the same four. *)
Definition except_disable_sigcatch (tbl : Z → disposition) : Z → disposition :=
  sigaction (SIGBUS sig) SIG_DFL
    (sigaction (SIGSEGV sig) SIG_DFL
       (sigaction (SIGFPE sig) SIG_DFL
          (sigaction (SIGILL sig) SIG_DFL tbl))).

(** The signals that the two functions set. *)
Definition translated_signals : list Z := [SIGILL sig; SIGFPE sig; SIGSEGV sig; SIGBUS sig].

End Translator.

(** Example numbers (those of Linux on x86-64) and an example layout: two
    members of eight bytes, little endian, the first standing for the
    pointer to the message (here its length), the second the address. *)
Definition example_signal_h : signal_h :=
  SignalH 8 7 11 4 1 2 3 4 5 6 7 8 1 8 4.

Fixpoint little_endian (n : nat) (z : Z) : list byte :=
  match n with
  | 0 => []
  | S n' => default x00 (Byte.of_N (Z.to_N (z mod 256))) :: little_endian n' (z / 256)
  end.

Definition example_object (message : string) (address : Z) : list byte :=
  little_endian 8 (Z.of_nat (String.length message)) ++ little_endian 8 address.

End Sigcatch.

(* ===================================================================== *)
(** * Properties of libdefer *)
(* ===================================================================== *)

Module DeferFacts.
Import Defer.

Lemma run_cleanups_prefix (n : nat) : ∀ (f : defer_frame_t) (lg : list event),
  n ≤ count f → count f ≤ length (entries f) →
  Forall (λ e, cleanup e ≠ NULL) (pending f) →
  run_cleanups n f lg =
    Some (Frame (entries f) (context f) (count f - n) (can_recover f) (ok f),
          lg ++ (call_of <$> reverse (drop (count f - n) (pending f)))).
Proof.
  induction n as [|n IH]; intros f lg Hn Hlen Hnn.
  - simpl. rewrite Nat.sub_0_r. unfold pending.
    rewrite drop_ge by (rewrite length_take; lia).
    rewrite app_nil_r. by destruct f.
  - simpl. destruct (count f) as [|c] eqn:Hc; [lia|].
    destruct (lookup_lt_is_Some_2 (entries f) c ltac:(lia)) as [e He].
    rewrite He.
    assert (Hpend : pending f = take c (entries f) ++ [e]).
    { unfold pending. rewrite Hc. by apply take_S_r. }
    rewrite Hpend, Forall_app, Forall_singleton in Hnn. destruct Hnn as [Hnn1 Hnn2].
    rewrite decide_False by exact Hnn2.
    rewrite IH; simpl; [|lia|lia|done].
    f_equal. f_equal.
    rewrite Hpend. unfold pending at 1. simpl.
    replace (S c - S n) with (c - n) by lia.
    rewrite drop_app_le by (rewrite length_take; lia).
    rewrite reverse_app, fmap_app. simpl.
    by rewrite <- app_assoc.
Qed.

Lemma run_cleanups_wf (f : defer_frame_t) (lg : list event) :
  frame_wf f →
  run_cleanups (count f) f lg =
    Some (Frame (entries f) (context f) 0 (can_recover f) (ok f), lg ++ cleanup_calls f).
Proof.
  intros (Hlen & Hc & Hnn).
  rewrite run_cleanups_prefix; [|lia|lia|done].
  by rewrite Nat.sub_diag.
Qed.

Lemma deregister_wf (f : defer_frame_t) (link : list defer_frame_t) (lg : list event) :
  frame_wf f →
  __defer_frame_deregister (Thread (f :: link) lg)
    = (Thread link (lg ++ cleanup_calls f), Returned tt).
Proof.
  intros Hwf. unfold __defer_frame_deregister. simpl.
  by rewrite run_cleanups_wf.
Qed.

(** A recoverable unwind deregisters the unmarked frames it meets and stops
    at the first marked one, which it leaves as it is. *)
Lemma unwind_to_innermost_mark (error : Z) (s : site)
    (inner : list defer_frame_t) (target : defer_frame_t) (outer : list defer_frame_t) :
  Forall (λ f, can_recover f = false ∧ frame_wf f) inner →
  can_recover target = true → context target = Some s →
  ∀ lg, unwind_frames error true (inner ++ target :: outer) lg
    = (Thread (target :: outer) (lg ++ (inner ≫= cleanup_calls)), Longjmp s (longjmp_val error)).
Proof.
  intros Hin Hm Hctx. induction Hin as [|f inner [Hf Hwf] _ IH]; intros lg.
  - simpl. rewrite Hm, Hctx. simpl. by rewrite app_nil_r.
  - simpl app. cbn [unwind_frames]. rewrite Hf. simpl andb. cbv iota.
    rewrite deregister_wf by done. simpl.
    rewrite IH. by rewrite <- app_assoc.
Qed.

(** A non-recoverable unwind deregisters every frame. *)
Lemma unwind_all (error : Z) (frames : list defer_frame_t) :
  Forall frame_wf frames →
  ∀ lg, unwind_frames error false frames lg
    = (Thread [] (lg ++ (frames ≫= cleanup_calls)), Returned tt).
Proof.
  induction 1 as [|f frames Hwf _ IH]; intros lg.
  - simpl. by rewrite app_nil_r.
  - cbn [unwind_frames]. rewrite andb_false_r.
    rewrite deregister_wf by done. simpl.
    rewrite IH. by rewrite <- app_assoc.
Qed.

Lemma calloc_frame_wf : frame_wf calloc_frame.
Proof.
  unfold frame_wf, pending, DEFER_MAX. simpl.
  split; [reflexivity|]. split; [lia|constructor].
Qed.

Lemma defer_registers (h : fnptr) (a : Z) (f : defer_frame_t)
    (link : list defer_frame_t) (lg : list event) :
  h ≠ NULL → frame_wf f → count f < DEFER_MAX →
  ∃ f', defer h a (Thread (f :: link) lg) = (Thread (f' :: link) lg, Returned a)
        ∧ frame_wf f' ∧ pending f' = pending f ++ [Entry h a]
        ∧ count f' = S (count f)
        ∧ can_recover f' = can_recover f ∧ context f' = context f.
Proof.
  intros Hh (Hlen & Hc & Hnn) Hlt.
  unfold defer. rewrite decide_False by done. simpl.
  rewrite decide_False by lia.
  destruct (lookup_lt_is_Some_2 (entries f) (count f) ltac:(lia)) as [e0 He0].
  rewrite He0. eexists. split; [reflexivity|].
  assert (Hp : take (S (count f)) (<[count f:=Entry h a]> (entries f))
               = pending f ++ [Entry h a]).
  { rewrite (take_S_r _ _ (Entry h a)) by (apply list_lookup_insert_eq; lia).
    by rewrite take_insert_ge by lia. }
  repeat split; simpl; try done.
  - by rewrite length_insert.
  - unfold pending. simpl. rewrite Hp. apply Forall_app. split; [done|].
    by apply Forall_singleton.
Qed.

Lemma defer_all_registers (ps : list (fnptr * Z)) :
  ∀ (f : defer_frame_t) (link : list defer_frame_t) (lg : list event),
  Forall (λ p, p.1 ≠ NULL) ps → frame_wf f → count f + length ps ≤ DEFER_MAX →
  ∃ f', defer_all ps (Thread (f :: link) lg) = (Thread (f' :: link) lg, Returned tt)
        ∧ frame_wf f' ∧ pending f' = pending f ++ (entry_of <$> ps)
        ∧ count f' = count f + length ps
        ∧ can_recover f' = can_recover f ∧ context f' = context f.
Proof.
  induction ps as [|[h a] ps IH]; intros f link lg Hnn Hwf Hlen.
  - exists f. simpl. rewrite app_nil_r.
    split; [done|]. split; [done|]. split; [done|]. split; [lia|done].
  - apply Forall_cons in Hnn as [Hh Hnn]. simpl in Hh, Hlen.
    destruct (defer_registers h a f link lg Hh Hwf ltac:(lia))
      as (f1 & E1 & Hwf1 & Hp1 & Hc1 & Hr1 & Hx1).
    destruct (IH f1 link lg Hnn Hwf1 ltac:(lia)) as (f2 & E2 & Hwf2 & Hp2 & Hc2 & Hr2 & Hx2).
    exists f2. cbn [defer_all]. rewrite E1, E2.
    split; [done|]. split; [done|].
    split; [by rewrite Hp2, Hp1, <- app_assoc|].
    split; [simpl; lia|]. split; congruence.
Qed.

Lemma cleanup_calls_of_pairs (f : defer_frame_t) (ps : list (fnptr * Z)) :
  pending f = entry_of <$> ps → cleanup_calls f = called_of <$> reverse ps.
Proof.
  intros Hp. unfold cleanup_calls. rewrite Hp.
  rewrite <- fmap_reverse, <- list_fmap_compose. done.
Qed.

Lemma defer_all_app (ps qs : list (fnptr * Z)) : ∀ (t t' : thread),
  defer_all ps t = (t', Returned tt) → defer_all (ps ++ qs) t = defer_all qs t'.
Proof.
  induction ps as [|[h a] ps IH]; intros t t' E.
  - simpl in *. congruence.
  - simpl in *. destruct (defer h a t) as [t1 [x| | | |]]; try done. by apply IH.
Qed.

(** C4. In a function scope that registers the [n <= 16] pairs [ps] with
    [defer], every call succeeds; the cleanup loop then invokes exactly the
    registered pairs, each once, the most recently registered first, and it
    does so while the frame is still the current one; the exit hook
    ([__cyg_profile_func_exit], normal exit) and an unwind that passes the
    frame both run that loop and only afterwards make the parent frame
    current. *)
Theorem deferred_handlers_run_once_in_reverse_order
    (ps : list (fnptr * Z)) (t : thread) :
  length ps ≤ DEFER_MAX → Forall (λ p, p.1 ≠ NULL) ps →
  ∃ f : defer_frame_t,
    let t1 := Thread (f :: __defer_frame_current t) (log t) in
    let lg := log t ++ (called_of <$> reverse ps) in
    defer_all ps (__defer_frame_register calloc_frame t) = (t1, Returned tt)
    ∧ pending f = entry_of <$> ps
    ∧ (∃ f0, run_cleanups (count f) f (log t) = Some (f0, lg) ∧ count f0 = 0)
    ∧ __cyg_profile_func_exit t1 = (Thread (__defer_frame_current t) lg, Returned tt)
    ∧ ∀ error recoverable,
        __defer_unwind error recoverable t1
        = unwind_frames error recoverable (__defer_frame_current t) lg.
Proof.
  intros Hlen Hnn.
  destruct (defer_all_registers ps calloc_frame (__defer_frame_current t) (log t)
              Hnn calloc_frame_wf ltac:(simpl; lia))
    as (f & E & Hwf & Hp & Hc & Hr & Hx).
  exists f. simpl in Hp.
  pose proof (cleanup_calls_of_pairs f ps Hp) as Hcalls.
  repeat split.
  - exact E.
  - exact Hp.
  - eexists. rewrite run_cleanups_wf, Hcalls by done. split; reflexivity.
  - unfold __cyg_profile_func_exit. rewrite deregister_wf, Hcalls by done. done.
  - intros error recoverable. unfold __defer_unwind.
    cbn [__defer_frame_current log unwind_frames]. rewrite Hr.
    cbn [can_recover calloc_frame andb].
    rewrite deregister_wf, Hcalls by done. done.
Qed.

Lemma deferred_handlers_run_once_in_reverse_order_witness :
  ∃ f : defer_frame_t,
    let t1 := Thread [f] [] in
    let lg := [Called 2 20%Z; Called 1 10%Z] in
    defer_all [(1, 10%Z); (2, 20%Z)] (__defer_frame_register calloc_frame (Thread [] []))
      = (t1, Returned tt)
    ∧ pending f = entry_of <$> [(1, 10%Z); (2, 20%Z)]
    ∧ (∃ f0, run_cleanups (count f) f [] = Some (f0, lg) ∧ count f0 = 0)
    ∧ __cyg_profile_func_exit t1 = (Thread [] lg, Returned tt)
    ∧ ∀ error recoverable,
        __defer_unwind error recoverable t1 = unwind_frames error recoverable [] lg.
Proof.
  apply (deferred_handlers_run_once_in_reverse_order
           [(1, 10%Z); (2, 20%Z)] (Thread [] [])).
  - vm_compute. lia.
  - repeat constructor; simpl; discriminate.
Defined.

(** C5. When the current frame already holds [DEFER_MAX = 16] pairs, a
    further [defer] writes the overflow diagnostic to stderr and ends in
    [abort()], which terminates the process; the frames of the thread are left
    exactly as they were, so no 17th pair is stored.  In particular the 17th
    registration of a function scope ends like this. *)
Theorem defer_overflow_aborts_process
    (h : fnptr) (a : Z) (f : defer_frame_t) (link : list defer_frame_t) (lg : list event) :
  h ≠ NULL → count f = DEFER_MAX →
  defer h a (Thread (f :: link) lg)
    = (Thread (f :: link) (lg ++ [Stderr ("Tried to defer more than DEFER_MAX handlers" ++ nl)]),
       Aborted)
  ∧ ∀ (ps : list (fnptr * Z)) (t : thread),
      length ps = DEFER_MAX → Forall (λ p, p.1 ≠ NULL) ps →
      ∃ f16, defer_all (ps ++ [(h, a)]) (__defer_frame_register calloc_frame t)
             = (Thread (f16 :: __defer_frame_current t)
                       (log t ++ [Stderr ("Tried to defer more than DEFER_MAX handlers" ++ nl)]),
                Aborted)
             ∧ pending f16 = entry_of <$> ps.
Proof.
  intros Hh Hc.
  assert (Hfull : ∀ g link' lg', count g = DEFER_MAX →
            defer h a (Thread (g :: link') lg')
            = (Thread (g :: link')
                 (lg' ++ [Stderr ("Tried to defer more than DEFER_MAX handlers" ++ nl)]),
               Aborted)).
  { intros g link' lg' Hg. unfold defer. rewrite decide_False by done. simpl.
    by rewrite decide_True by done. }
  split; [by apply Hfull|].
  intros ps t Hlen Hnn.
  destruct (defer_all_registers ps calloc_frame (__defer_frame_current t) (log t)
              Hnn calloc_frame_wf ltac:(simpl; lia))
    as (f16 & E & Hwf & Hp & Hc16 & _).
  exists f16. split; [|exact Hp].
  rewrite (defer_all_app _ _ _ _ E). cbn [defer_all].
  rewrite Hfull; [done|]. rewrite Hc16, Hlen. done.
Qed.

Lemma defer_overflow_aborts_process_witness :
  let full := Frame (replicate 16 (Entry 1 0%Z)) None 16 false false in
  defer 5 7%Z (Thread [full] [])
    = (Thread [full] [Stderr ("Tried to defer more than DEFER_MAX handlers" ++ nl)], Aborted)
  ∧ ∀ (ps : list (fnptr * Z)) (t : thread),
      length ps = DEFER_MAX → Forall (λ p, p.1 ≠ NULL) ps →
      ∃ f16, defer_all (ps ++ [(5, 7%Z)]) (__defer_frame_register calloc_frame t)
             = (Thread (f16 :: __defer_frame_current t)
                       (log t ++ [Stderr ("Tried to defer more than DEFER_MAX handlers" ++ nl)]),
                Aborted)
             ∧ pending f16 = entry_of <$> ps.
Proof.
  intros full.
  apply (defer_overflow_aborts_process 5 7%Z full [] []).
  - discriminate.
  - reflexivity.
Defined.

Lemma recover_marks (s : site) (f : defer_frame_t) (link : list defer_frame_t) (lg : list event) :
  recover s (Thread (f :: link) lg)
    = (Thread (Frame (entries f) (Some s) (count f) true (ok f) :: link) lg, Returned 0%Z).
Proof. reflexivity. Qed.

Lemma longjmp_val_nonzero (code : Z) : code ≠ 0%Z → longjmp_val code = code.
Proof. intros H. unfold longjmp_val. by apply Z.eqb_neq in H as ->. Qed.

Lemma panic_to_innermost_mark (name desc : Z → string) (code : Z) (s : site)
    (inner : list defer_frame_t) (target : defer_frame_t) (outer : list defer_frame_t)
    (lg : list event) :
  code ≠ 0%Z →
  Forall (λ f, can_recover f = false ∧ frame_wf f) inner →
  can_recover target = true → context target = Some s →
  panic name desc code (Thread (inner ++ target :: outer) lg)
    = (Thread (target :: outer) (lg ++ (inner ≫= cleanup_calls)), Longjmp s code).
Proof.
  intros Hc Hin Hm Hctx. unfold panic, __defer_unwind.
  rewrite decide_False by done. simpl.
  rewrite (unwind_to_innermost_mark code s) by done.
  by rewrite longjmp_val_nonzero.
Qed.

(** C3. [panic(code)], [code != 0], on a thread where [target] is the
    innermost frame that has called [recover()] (it carries the mark and the
    continuation point [s] that the call captured) and [inner] are the frames
    opened after it: control is transferred by [longjmp] to [s], where
    [recover()] returns [code]; before that every frame of [inner] has been
    deregistered, innermost first, each running its pending cleanups (most
    recent first); [target] itself, with its pending cleanups, is left
    untouched as the current frame, and so is everything outside it. *)
Theorem panic_transfers_to_innermost_recover (name desc : Z → string) (code : Z) (s : site)
    (inner : list defer_frame_t) (target : defer_frame_t) (outer : list defer_frame_t)
    (lg : list event) :
  code ≠ 0%Z →
  Forall (λ f, can_recover f = false ∧ frame_wf f) inner →
  can_recover target = true → context target = Some s →
  panic name desc code (Thread (inner ++ target :: outer) lg)
    = (Thread (target :: outer) (lg ++ (inner ≫= cleanup_calls)), Longjmp s code).
Proof. apply panic_to_innermost_mark. Qed.

Lemma panic_transfers_to_innermost_recover_witness :
  panic example_error_name example_error_desc 22%Z
        (exec_ops example_error_name example_error_desc recover_then_two_defers (Thread [] []))
  = (Thread [Frame (entries calloc_frame) (Some 7) 0 true false]
            [Called 2 20%Z; Called 1 10%Z],
     Longjmp 7 22%Z).
Proof.
  pose (inner := [Frame (<[1:=Entry 2 20%Z]> (<[0:=Entry 1 10%Z]> (entries calloc_frame)))
                        None 2 false false]).
  pose (target := Frame (entries calloc_frame) (Some 7) 0 true false).
  change (panic example_error_name example_error_desc 22%Z (Thread (inner ++ target :: []) [])
          = (Thread (target :: []) ([] ++ (inner ≫= cleanup_calls)), Longjmp 7 22%Z)).
  apply (panic_transfers_to_innermost_recover example_error_name example_error_desc
           22%Z 7 inner target [] []).
  - lia.
  - constructor; [|constructor]. split; [reflexivity|].
    split; [reflexivity|]. split; [vm_compute; lia|].
    repeat constructor; simpl; discriminate.
  - reflexivity.
  - reflexivity.
Defined.

(** ** The recovery mark over the lifetime of a frame *)

Lemma frame_at_split (k : nat) (t : thread) (f : defer_frame_t) :
  frame_at k t = Some f ↔
  ∃ inner outer, __defer_frame_current t = inner ++ f :: outer ∧ length outer = k.
Proof.
  unfold frame_at. rewrite reverse_lookup_Some. split.
  - intros [Hl Hk]. apply list_elem_of_split_length in Hl as (inner & outer & E & Hi).
    exists inner, outer. split; [done|].
    rewrite E, length_app in Hi. simpl in Hi.
    rewrite E, length_app in Hk. simpl in Hk. lia.
  - intros (inner & outer & E & Hk). rewrite E, length_app. simpl. split; [|lia].
    replace (length inner + S (length outer) - S k) with (length inner + 0) by lia.
    by rewrite lookup_app_r, Nat.add_0_r, Nat.sub_diag by lia.
Qed.

Lemma unwind_stops_at_mark (error : Z) (f : defer_frame_t) (outer : list defer_frame_t) :
  can_recover f = true →
  ∀ inner lg, ∃ inner' lg' o,
    unwind_frames error true (inner ++ f :: outer) lg = (Thread (inner' ++ f :: outer) lg', o)
    ∧ ∀ u, o ≠ Returned u.
Proof.
  intros Hm. induction inner as [|g inner IH]; intros lg.
  - simpl. rewrite Hm. simpl. exists [], lg.
    destruct (context f); eexists; (split; [reflexivity|done]).
  - simpl app. cbn [unwind_frames].
    destruct (can_recover g); simpl andb; cbv iota.
    + exists (g :: inner), lg.
      destruct (context g); eexists; (split; [reflexivity|done]).
    + unfold __defer_frame_deregister. simpl.
      destruct (run_cleanups (count g) g lg) as [[g' lg']|].
      * simpl. apply IH.
      * exists (g :: inner), lg. eexists. split; [reflexivity|done].
Qed.

Section Lifetime.
Variables name desc : Z → string.

Lemma marked_at_step (k : nat) (C : option site → Prop) (o : op) (t : thread) :
  marked_at k C t → destroys k o t = false →
  (recaptures k o t = false ∨ ∀ s, C (Some s)) →
  marked_at k C (exec_op name desc o t).1.
Proof.
  intros (inner & f & outer & E & Hk & Hm & HC) Hd Hr.
  destruct t as [stack lg]. simpl in E. subst stack.
  destruct o as [b| |h a|s|error]; simpl.
  - (* enter *)
    destruct b; simpl.
    + exists (calloc_frame :: inner), f, outer. by repeat split.
    + exists inner, f, outer. by repeat split.
  - (* exit *)
    simpl in Hd. apply bool_decide_eq_false in Hd.
    destruct inner as [|g inner].
    { exfalso. apply Hd. simpl. by rewrite Hk. }
    unfold __cyg_profile_func_exit, __defer_frame_deregister. simpl.
    destruct (run_cleanups (count g) g lg) as [[g' lg']|]; simpl.
    + exists inner, f, outer. by repeat split.
    + exists (g :: inner), f, outer. by repeat split.
  - (* defer *)
    unfold defer. destruct (decide (h = NULL)); simpl.
    { exists inner, f, outer. by repeat split. }
    destruct inner as [|g inner]; simpl.
    + destruct (decide (count f = DEFER_MAX)); simpl.
      { exists [], f, outer. by repeat split. }
      destruct (entries f !! count f); simpl.
      * eexists [], _, outer. by repeat split.
      * exists [], f, outer. by repeat split.
    + destruct (decide (count g = DEFER_MAX)); simpl.
      { exists (g :: inner), f, outer. by repeat split. }
      destruct (entries g !! count g); simpl.
      * eexists (_ :: inner), f, outer. by repeat split.
      * exists (g :: inner), f, outer. by repeat split.
  - (* recover *)
    destruct inner as [|g inner]; simpl.
    + eexists [], _, outer. repeat split; simpl; try done.
      destruct Hr as [Hr|Hr]; [|apply Hr].
      simpl in Hr. apply bool_decide_eq_false in Hr. exfalso. apply Hr. simpl. by rewrite Hk.
    + eexists (_ :: inner), f, outer. by repeat split.
  - (* panic *)
    unfold panic. destruct (decide (error = 0%Z)); simpl.
    { exists inner, f, outer. by repeat split. }
    unfold __defer_unwind. simpl.
    destruct (unwind_stops_at_mark error f outer Hm inner lg) as (inner' & lg' & r & E & Hne).
    rewrite E. destruct r as [u| | | |]; simpl; exists inner', f, outer; by repeat split.
Qed.

Lemma marked_at_steps (k : nat) (C : option site → Prop) (ops : list op) :
  ∀ t, marked_at k C t → never name desc (destroys k) ops t = true →
  (never name desc (recaptures k) ops t = true ∨ ∀ s, C (Some s)) →
  marked_at k C (exec_ops name desc ops t).
Proof.
  induction ops as [|o ops IH]; intros t Hm Hd Hr; [done|].
  simpl in *. apply andb_true_iff in Hd as [Hd1 Hd2].
  apply negb_true_iff in Hd1.
  assert (Hr1 : recaptures k o t = false ∨ ∀ s, C (Some s)).
  { destruct Hr as [Hr|Hr]; [|by right].
    apply andb_true_iff in Hr as [Hr _]. left. by apply negb_true_iff. }
  pose proof (marked_at_step k C o t Hm Hd1 Hr1) as Hstep.
  destruct (exec_op name desc o t) as [t' r]. simpl in Hstep.
  destruct (still_running r); [|done].
  apply IH; [done|done|].
  destruct Hr as [Hr|Hr]; [|by right].
  apply andb_true_iff in Hr as [_ Hr]. by left.
Qed.

(** C10. Let the frame at height [k] carry the recovery mark, with captured
    continuation point [s].  Whatever calls the thread makes afterwards
    (function entries and exits, [defer], [recover], panics, recovered or
    not), as long as none of them is the exit of that very function (the
    destruction of the frame), the frame is still linked at height [k], still
    marked and still holds a captured continuation point [s'], which is [s]
    itself unless [recover()] was called again in that frame.  Every
    recoverable panic that then reaches the frame (the frames above it being
    unmarked) is transferred to [s'], with the frame and its pending cleanups
    left in place.  The calls made in between may contain earlier panics that
    this frame has recovered. *)
Theorem recovery_mark_persists (k : nat) (ops : list op) (t : thread)
    (f : defer_frame_t) (s : site) :
  frame_at k t = Some f → can_recover f = true → context f = Some s →
  never name desc (destroys k) ops t = true →
  let t' := exec_ops name desc ops t in
  ∃ f' s', frame_at k t' = Some f' ∧ can_recover f' = true ∧ context f' = Some s'
    ∧ (never name desc (recaptures k) ops t = true → s' = s)
    ∧ ∀ inner outer code,
        __defer_frame_current t' = inner ++ f' :: outer → length outer = k →
        Forall (λ g, can_recover g = false ∧ frame_wf g) inner → code ≠ 0%Z →
        panic name desc code t'
        = (Thread (f' :: outer) (log t' ++ (inner ≫= cleanup_calls)), Longjmp s' code).
Proof.
  intros Hat Hm Hctx Hlive t'.
  apply frame_at_split in Hat as (inner0 & outer0 & E0 & Hk0).
  assert (H1 : marked_at k is_Some t').
  { apply marked_at_steps; [|done|right; eauto].
    exists inner0, f, outer0. rewrite Hctx. eauto. }
  destruct H1 as (inner1 & f' & outer1 & E1 & Hk1 & Hm1 & [s' Hs']).
  assert (Hat1 : frame_at k t' = Some f') by (apply frame_at_split; eauto).
  exists f', s'. split; [done|]. split; [done|]. split; [done|]. split.
  - intros Hnr.
    assert (H2 : marked_at k (λ c, c = Some s) t').
    { apply marked_at_steps; [|done|by left].
      exists inner0, f, outer0. eauto. }
    destruct H2 as (inner2 & f2 & outer2 & E2 & Hk2 & Hm2 & Hs2).
    assert (Hat2 : frame_at k t' = Some f2) by (apply frame_at_split; eauto).
    congruence.
  - intros inner outer code E Hk Hin Hcode.
    destruct t' as [stack lg]. simpl in E. subst stack. simpl.
    by apply panic_to_innermost_mark.
Qed.

End Lifetime.

Lemma recovery_mark_persists_witness :
  let t := exec_ops example_error_name example_error_desc
             [OpEnter true; OpRecover 7] (Thread [] []) in
  let ops := [OpEnter true; OpDefer 1 10%Z; OpPanic 22%Z; OpDefer 3 30%Z;
              OpEnter true; OpDefer 4 40%Z] in
  let t' := exec_ops example_error_name example_error_desc ops t in
  ∃ f' s', frame_at 0 t' = Some f' ∧ can_recover f' = true ∧ context f' = Some s'
    ∧ (never example_error_name example_error_desc (recaptures 0) ops t = true → s' = 7)
    ∧ ∀ inner outer code,
        __defer_frame_current t' = inner ++ f' :: outer → length outer = 0 →
        Forall (λ g, can_recover g = false ∧ frame_wf g) inner → code ≠ 0%Z →
        panic example_error_name example_error_desc code t'
        = (Thread (f' :: outer) (log t' ++ (inner ≫= cleanup_calls)), Longjmp s' code).
Proof.
  intros t ops.
  apply (recovery_mark_persists example_error_name example_error_desc 0 ops t
           (Frame (entries calloc_frame) (Some 7) 0 true false) 7).
  - reflexivity.
  - reflexivity.
  - reflexivity.
  - vm_compute. reflexivity.
Defined.

(** C9, as stated, fails: when a function calls [recover()] and then calls a
    function that calls [recover()] as well, two frames of the thread carry
    the recovery mark at the same time. *)
Lemma two_frames_marked_at_once :
  ¬ (marked_count (exec_ops example_error_name example_error_desc nested_recovers
                     (Thread [] [])) ≤ 1).
Proof. vm_compute. lia. Qed.

(** C9, amended.  The mark is a field of each frame: [recover()] sets it in
    the current frame and touches no other frame, so the marks of the
    enclosing frames stay as they are (and several frames can be marked at
    once).  A second [recover()] in the same frame changes no mark at all, the
    number of marked frames stays the same, and the frame's saved continuation
    point becomes the one of the most recent call.  A recoverable panic
    raised then is delivered to that one frame, the innermost marked one,
    whatever marks the enclosing frames [link] carry. *)
Theorem recover_again_remarks_same_frame (name desc : Z → string)
    (f : defer_frame_t) (link : list defer_frame_t) (lg : list event) (s1 s2 : site) :
  let t1 := (recover s1 (Thread (f :: link) lg)).1 in
  let t2 := (recover s2 t1).1 in
  can_recover <$> __defer_frame_current t2 = can_recover <$> __defer_frame_current t1
  ∧ marked_count t2 = marked_count t1
  ∧ marked_count t1 = S (length (filter (λ g, can_recover g = true) link))
  ∧ (∃ f2, __defer_frame_current t2 = f2 :: link ∧ can_recover f2 = true
           ∧ context f2 = Some s2 ∧ pending f2 = pending f)
  ∧ ∀ code, code ≠ 0%Z → panic name desc code t2 = (t2, Longjmp s2 code).
Proof.
  intros t1 t2. subst t1 t2. rewrite !recover_marks. simpl.
  split; [done|]. split; [done|]. split.
  { unfold marked_count. simpl. done. }
  split; [eexists; by repeat split|].
  intros code Hcode.
  pose proof (panic_to_innermost_mark name desc code s2 []
                (Frame (entries f) (Some s2) (count f) true (ok f)) link lg
                Hcode ltac:(constructor) eq_refl eq_refl) as H.
  simpl in H. by rewrite app_nil_r in H.
Qed.

Lemma recover_again_remarks_same_frame_witness :
  let link := [Frame (entries calloc_frame) (Some 1) 0 true false] in
  let t1 := (recover 2 (Thread (calloc_frame :: link) [])).1 in
  let t2 := (recover 3 t1).1 in
  can_recover <$> __defer_frame_current t2 = can_recover <$> __defer_frame_current t1
  ∧ marked_count t2 = marked_count t1
  ∧ marked_count t1 = S (length (filter (λ g, can_recover g = true) link))
  ∧ (∃ f2, __defer_frame_current t2 = f2 :: link ∧ can_recover f2 = true
           ∧ context f2 = Some 3 ∧ pending f2 = pending calloc_frame)
  ∧ ∀ code, code ≠ 0%Z →
      panic example_error_name example_error_desc code t2 = (t2, Longjmp 3 code).
Proof.
  intros link.
  apply (recover_again_remarks_same_frame example_error_name example_error_desc
           calloc_frame link [] 2 3).
Defined.

End DeferFacts.

(* ===================================================================== *)
(** * Properties of libexcept *)
(* ===================================================================== *)

Module ExceptFacts.
Import Except.

Lemma select_clause_elem (stage error : Z) (st : state) (cs : list clause) (c : clause) :
  select_clause stage error st cs = Some (Some c) → c ∈ cs.
Proof.
  induction cs as [|c' cs IH]; simpl; [done|]. intros H.
  destruct c' as [T h|h|h].
  - destruct (_ && _).
    + destruct (__except_personality _ _) as [[|]|]; simplify_eq; [left|right; auto].
    + right; auto.
  - destruct (_ && _); simplify_eq; [left|right; auto].
  - destruct (_ =? _)%Z; simplify_eq; [left|right; auto].
Qed.

Lemma first_finally_elem (cs : list clause) (h : body) :
  first_finally cs = Some h → FINALLY h ∈ cs.
Proof.
  induction cs as [|[T h'|h'|h'] cs IH]; simpl; [done|..].
  - right; auto.
  - right; auto.
  - intros [= ->]. left.
Qed.

Section Engine.
Variable sizeof : ctype → nat.
Variable impl : implementation.
Variable code : fnptr → body.

Section Loop.
Variables (rethrow unexpected : body) (me : jmp_buf) (old : option jmp_buf)
          (try_body : body) (cs : list clause).
Hypothesis rethrow_away : ∀ st, (rethrow (set_context old st)).2 ≠ Jumped me.
Hypothesis unexpected_away : ∀ st, (unexpected st).2 ≠ Jumped me.

Local Abbreviation loop := (stage_loop sizeof impl rethrow unexpected me old try_body cs).

Lemma loop_propagate (fuel : nat) (ch : bool) (error : Z) (st : state) :
  2 ≤ fuel → (error = 0 ∨ error = 1)%Z →
  loop fuel ch 3%Z error st = spec_propagate rethrow old (negb (error =? 0)%Z) st.
Proof.
  intros Hf He. do 2 (destruct fuel as [|fuel]; [lia|]).
  unfold spec_propagate. cbn [stage_loop]. change (3 <? 4)%Z with true. cbv iota.
  unfold stage_pass. cbv zeta. change (3 =? __EXCEPT_STAGE_PROPAGATE)%Z with true. cbv iota.
  destruct He as [-> | ->]; simpl negb; cbv iota.
  - done.
  - pose proof (rethrow_away st) as Hr.
    destruct (rethrow (set_context old st)) as [st2 o]. simpl in Hr.
    destruct o; simpl; try done. by rewrite decide_False by congruence.
Qed.

Lemma loop_unexpected (fuel : nat) (ch : bool) (error : Z) (st : state) :
  1 ≤ fuel → loop fuel ch (-1)%Z error st = noreturn (unexpected st).
Proof.
  intros Hf. destruct fuel as [|fuel]; [lia|].
  cbn [stage_loop]. change (-1 <? 4)%Z with true. cbv iota.
  unfold stage_pass. cbv zeta. change (-1 =? __EXCEPT_STAGE_PROPAGATE)%Z with false.
  change (-1 =? __EXCEPT_STAGE_UNEXPECTED)%Z with true. cbv iota.
  pose proof (unexpected_away st) as Hu.
  destruct (unexpected st) as [st1 o]. simpl in Hu.
  destruct o; simpl; try done. by rewrite decide_False by congruence.
Qed.

Lemma select_finally_stage (error : Z) (st : state) :
  select_clause 2%Z error st cs = Some (FINALLY <$> first_finally cs).
Proof.
  induction cs as [|[T h|h|h] cs' IH]; simpl; done.
Qed.

Lemma select_idle (stage error : Z) (st : state) :
  (stage = 0 ∨ (stage = 1 ∧ error = 0))%Z → select_clause stage error st cs = Some None.
Proof.
  intros H. induction cs as [|[T h|h|h] cs' IH]; simpl; [done|..];
    destruct H as [-> | [-> ->]]; simpl; done.
Qed.

Lemma select_catch_stage (tag : string) (st : state) :
  current_id st = Some tag →
  ∃ oc, select_clause 1%Z 1%Z st cs = Some oc ∧
        match oc with
        | None => first_matching_catch sizeof impl tag cs = None
        | Some (CATCH T h) =>
          first_matching_catch sizeof impl tag cs
          = Some (λ st', h (catch_variable sizeof impl T st') st')
        | Some (CATCH_ANY h) => first_matching_catch sizeof impl tag cs = Some h
        | Some (FINALLY _) => False
        end.
Proof.
  intros Hid. induction cs as [|[T h|h|h] cs' IH]; simpl.
  - by exists None.
  - unfold __except_personality. rewrite Hid.
    destruct (String.eqb tag (__EXCEPT_TYPE_NAME T)); [|done].
    by exists (Some (CATCH T h)).
  - by exists (Some (CATCH_ANY h)).
  - done.
Qed.

Hypothesis finally_no_break : ∀ h st, first_finally cs = Some h → (h st).2 ≠ Broke.
Hypothesis escapes : unexpected_stage_found sizeof impl me cs.

Lemma loop_finally (fuel : nat) (ch : bool) (error : Z) (st : state) :
  3 ≤ fuel → (error = 0 ∨ error = 1)%Z →
  loop fuel ch 2%Z error st
  = spec_finally unexpected me cs (spec_propagate rethrow old (negb (error =? 0)%Z)) st.
Proof.
  intros Hf He. destruct fuel as [|fuel]; [lia|].
  unfold spec_finally. cbn [stage_loop]. change (2 <? 4)%Z with true. cbv iota.
  unfold stage_pass. cbv zeta. change (2 =? __EXCEPT_STAGE_PROPAGATE)%Z with false.
  change (2 =? __EXCEPT_STAGE_UNEXPECTED)%Z with false.
  change (2 =? __EXCEPT_STAGE_TRY)%Z with false. cbn [andb]. cbv iota.
  rewrite (select_finally_stage error st).
  pose proof (finally_no_break) as Hnb.
  destruct (first_finally cs) as [h|] eqn:Hh; simpl.
  - specialize (Hnb h st eq_refl). destruct (h st) as [st1 o] eqn:Hrun. simpl in Hnb.
    destruct o; simpl; try done.
    + by apply loop_propagate; [lia|].
    + case_decide as Hb; [|done]. subst target.
      pose proof (escapes (FINALLY h) st st1 (first_finally_elem _ _ Hh) Hrun) as E.
      unfold clause_stage, __EXCEPT_STAGE_FINALLY, __EXCEPT_STAGE_UNEXPECTED in *.
      rewrite E. apply loop_unexpected. lia.
  - by apply loop_propagate; [lia|].
Qed.

Lemma loop_catch_pending (fuel : nat) (ch : bool) (st : state) :
  4 ≤ fuel → is_Some (current_id st) →
  loop fuel ch 1%Z 1%Z st
  = spec_catch sizeof impl unexpected me cs
      (λ pending, spec_finally unexpected me cs (spec_propagate rethrow old pending)) st.
Proof.
  intros Hf [tag Hid]. destruct fuel as [|fuel]; [lia|].
  unfold spec_catch. cbn [stage_loop]. change (1 <? 4)%Z with true. cbv iota.
  unfold stage_pass. cbv zeta. change (1 =? __EXCEPT_STAGE_PROPAGATE)%Z with false.
  change (1 =? __EXCEPT_STAGE_UNEXPECTED)%Z with false.
  change (1 =? __EXCEPT_STAGE_TRY)%Z with false. cbn [andb]. cbv iota.
  rewrite Hid.
  destruct (select_catch_stage tag st Hid) as (oc & Hsel & Hoc). rewrite Hsel.
  destruct oc as [[T h|h|h]|]; [| |done|]; rewrite Hoc.
  - apply select_clause_elem in Hsel.
    destruct (h (catch_variable sizeof impl T st) st) as [st1 o] eqn:Hrun.
    destruct o; simpl; try done.
    + change (1 + 1)%Z with 2%Z. by rewrite loop_finally by (lia || auto).
    + change (1 + 1)%Z with 2%Z. by rewrite loop_finally by (lia || auto).
    + case_decide as Hb; [|done]. subst target.
      pose proof (escapes (CATCH T h) st st1 Hsel Hrun) as E.
      unfold clause_stage, __EXCEPT_STAGE_CATCH, __EXCEPT_STAGE_UNEXPECTED in *.
      rewrite E. apply loop_unexpected. lia.
  - apply select_clause_elem in Hsel.
    destruct (h st) as [st1 o] eqn:Hrun.
    destruct o; simpl; try done.
    + change (1 + 1)%Z with 2%Z. by rewrite loop_finally by (lia || auto).
    + change (1 + 1)%Z with 2%Z. by rewrite loop_finally by (lia || auto).
    + case_decide as Hb; [|done]. subst target.
      pose proof (escapes (CATCH_ANY h) st st1 Hsel Hrun) as E.
      unfold clause_stage, __EXCEPT_STAGE_CATCH, __EXCEPT_STAGE_UNEXPECTED in *.
      rewrite E. apply loop_unexpected. lia.
  - change (1 + 1)%Z with 2%Z. by rewrite loop_finally by (lia || auto).
Qed.

Lemma loop_catch_idle (fuel : nat) (ch : bool) (st : state) :
  4 ≤ fuel →
  loop fuel ch 1%Z 0%Z st = spec_finally unexpected me cs (spec_propagate rethrow old false) st.
Proof.
  intros Hf. destruct fuel as [|fuel]; [lia|].
  cbn [stage_loop]. change (1 <? 4)%Z with true. cbv iota.
  unfold stage_pass. cbv zeta. change (1 =? __EXCEPT_STAGE_PROPAGATE)%Z with false.
  change (1 =? __EXCEPT_STAGE_UNEXPECTED)%Z with false.
  change (1 =? __EXCEPT_STAGE_TRY)%Z with false. cbn [andb]. cbv iota.
  rewrite select_idle by auto.
  change (1 + 1)%Z with 2%Z. by rewrite loop_finally by (lia || auto).
Qed.

Lemma loop_try_pending (fuel : nat) (ch : bool) (st : state) :
  5 ≤ fuel → is_Some (current_id st) →
  loop fuel ch 0%Z 1%Z st
  = spec_catch sizeof impl unexpected me cs
      (λ pending, spec_finally unexpected me cs (spec_propagate rethrow old pending)) st.
Proof.
  intros Hf Hid. destruct fuel as [|fuel]; [lia|].
  cbn [stage_loop]. change (0 <? 4)%Z with true. cbv iota.
  unfold stage_pass. cbv zeta. change (0 =? __EXCEPT_STAGE_PROPAGATE)%Z with false.
  change (0 =? __EXCEPT_STAGE_UNEXPECTED)%Z with false.
  change (0 =? __EXCEPT_STAGE_TRY)%Z with true. change (1 =? 0)%Z with false.
  cbn [andb]. cbv iota.
  rewrite select_idle by auto.
  change (0 + 1)%Z with 1%Z. by apply loop_catch_pending; [lia|].
Qed.

Lemma loop_try (fuel : nat) (st : state) :
  6 ≤ fuel →
  (try_body st).2 ≠ Broke →
  (∀ st1, try_body st = (st1, Jumped me) → is_Some (current_id st1)) →
  loop fuel false 0%Z 0%Z st
  = match try_body st with
    | (st1, Normal) => spec_finally unexpected me cs (spec_propagate rethrow old false) st1
    | (st1, Jumped b) =>
      if decide (b = me)
      then spec_catch sizeof impl unexpected me cs
             (λ pending, spec_finally unexpected me cs (spec_propagate rethrow old pending)) st1
      else (st1, Jumped b)
    | (st1, o) => (st1, o)
    end.
Proof.
  intros Hf Hnb Hid. destruct fuel as [|fuel]; [lia|].
  cbn [stage_loop]. change (0 <? 4)%Z with true. cbv iota.
  unfold stage_pass. cbv zeta. change (0 =? __EXCEPT_STAGE_PROPAGATE)%Z with false.
  change (0 =? __EXCEPT_STAGE_UNEXPECTED)%Z with false.
  change (0 =? __EXCEPT_STAGE_TRY)%Z with true. change (0 =? 0)%Z with true.
  cbn [andb]. cbv iota.
  destruct (try_body st) as [st1 o]. simpl in Hnb.
  destruct o; simpl; try done.
  - change (0 + 1)%Z with 1%Z. apply loop_catch_idle. lia.
  - case_decide as Hb; [|done]. subst target.
    apply loop_try_pending; [lia|]. by apply Hid.
Qed.

End Loop.

(** The macro refines the stage sequence of the description. *)
Lemma try_block_refines_spec (rethrow unexpected : body) (fuel : nat)
    (try_body : body) (cs : list clause) (st : state) :
  6 ≤ fuel →
  (∀ st', (rethrow (set_context (context st) st')).2 ≠ Jumped (next_jmp_buf st)) →
  (∀ st', (unexpected st').2 ≠ Jumped (next_jmp_buf st)) →
  (try_body (push_context st)).2 ≠ Broke →
  (∀ h st', first_finally cs = Some h → (h st').2 ≠ Broke) →
  (∀ st1, try_body (push_context st) = (st1, Jumped (next_jmp_buf st)) →
          is_Some (current_id st1)) →
  unexpected_stage_found sizeof impl (next_jmp_buf st) cs →
  try_block sizeof impl rethrow unexpected fuel try_body cs st
  = spec_try sizeof impl rethrow unexpected try_body cs st.
Proof.
  intros Hf Hr Hu Hnb Hfin Hid Hesc. unfold try_block, spec_try.
  by apply loop_try.
Qed.

(** No body of [cs] raises: the implementation's choice does not matter. *)
Lemma quiet_clauses (me : jmp_buf) (cs : list clause) :
  (∀ c st st1, c ∈ cs → ¬ raises_in sizeof impl me c st st1) →
  unexpected_stage_found sizeof impl me cs.
Proof. intros H c st st1 Hc Hr. by destruct (H c st st1 Hc). Qed.

(** ** The library functions, with hooks that log and return *)

Hypothesis hooks_log : ∀ p, logs_only (code p).

Lemma hook_try (R U k : body) (fuel : nat) (p : fnptr) (st : state) :
  5 ≤ fuel →
  try_block sizeof impl R U fuel (code p) [CATCH_ANY k] st
  = (set_context (context st) (code p (push_context st)).1, Normal).
Proof.
  intros Hf. do 5 (destruct fuel as [|fuel]; [lia|]).
  unfold try_block. destruct (hooks_log p (push_context st)) as [es E].
  cbn [stage_loop]. unfold stage_pass. simpl. rewrite E. simpl. done.
Qed.

Lemma hooked_context (p : fnptr) (st : state) : context (hooked code p st) = context st.
Proof. unfold hooked. by case_decide. Qed.

Lemma hooked_record (p : fnptr) (st : state) :
  current_id (hooked code p st) = current_id st
  ∧ current_exception (hooked code p st) = current_exception st.
Proof.
  unfold hooked. case_decide; [done|].
  destruct (hooks_log p (push_context st)) as [es ->]. done.
Qed.

Lemma hooked_trace (p : fnptr) (st : state) :
  ∃ es, trace (hooked code p st) = trace st ++ es.
Proof.
  unfold hooked. case_decide; [exists []; by rewrite app_nil_r|].
  destruct (hooks_log p (push_context st)) as [es ->]. by exists es.
Qed.

Lemma throw_unfold (fuel : nat) (id : option string) (n : nat) (v : list byte) (st : state) :
  5 ≤ fuel →
  __except_throw sizeof impl code (S fuel) id n v st
  = let st2 := hooked code (except_on_throw st) (recorded id n v st) in
    match context st with
    | Some b => (st2, Jumped b)
    | None => __except_unhandled sizeof impl code fuel st2
    end.
Proof.
  intros Hf. cbn [__except_throw]. fold (recorded id n v st).
  assert (Hh : except_on_throw (recorded id n v st) = except_on_throw st) by by destruct id.
  assert (Hc : context (recorded id n v st) = context st) by by destruct id.
  rewrite Hh. unfold hooked. case_decide; cbv zeta.
  - by rewrite Hc.
  - rewrite hook_try by done. simpl. by rewrite Hc.
Qed.

Lemma unhandled_unfold (fuel : nat) (st : state) :
  5 ≤ fuel →
  __except_unhandled sizeof impl code (S fuel) st
  = if decide (except_on_unhandled st = NULL) then
      match current_id st with
      | Some i => (fprintf_stderr (unhandled_message i) st, ThreadExited EXIT_FAILURE)
      | None => (st, Undefined)
      end
    else (hooked code (except_on_unhandled st) st, ThreadExited EXIT_FAILURE).
Proof.
  intros Hf. cbn [__except_unhandled]. unfold hooked. case_decide.
  - by destruct (current_id st).
  - by rewrite hook_try by done.
Qed.

Lemma unexpected_unfold (fuel : nat) (st : state) :
  5 ≤ fuel →
  __except_unexpected sizeof impl code (S fuel) st
  = if decide (except_on_unexpected st = NULL) then
      match current_id st with
      | Some i => (fprintf_stderr (unexpected_message i) st, ThreadExited EXIT_FAILURE)
      | None => (st, Undefined)
      end
    else (hooked code (except_on_unexpected st) st, ThreadExited EXIT_FAILURE).
Proof.
  intros Hf. cbn [__except_unexpected]. unfold hooked. case_decide.
  - by destruct (current_id st).
  - by rewrite hook_try by done.
Qed.

Lemma unexpected_never_jumps (fuel : nat) (st : state) (b : jmp_buf) :
  6 ≤ fuel → (__except_unexpected sizeof impl code fuel st).2 ≠ Jumped b.
Proof.
  intros Hf. destruct fuel as [|fuel]; [lia|].
  rewrite unexpected_unfold by lia. case_decide; [|done].
  by destruct (current_id st).
Qed.

Lemma unhandled_never_jumps (fuel : nat) (st : state) (b : jmp_buf) :
  6 ≤ fuel → (__except_unhandled sizeof impl code fuel st).2 ≠ Jumped b.
Proof.
  intros Hf. destruct fuel as [|fuel]; [lia|].
  rewrite unhandled_unfold by lia. case_decide; [|done].
  by destruct (current_id st).
Qed.

(** A rethrow from a scope whose enclosing scope is [old] goes to [old], or
    ends the thread: it never comes back to the scope [me] that makes it. *)
Lemma rethrow_goes_outward (fuel : nat) (me : jmp_buf) (old : option jmp_buf) (st : state) :
  7 ≤ fuel → old ≠ Some me →
  (__except_throw sizeof impl code fuel None 0 [] (set_context old st)).2 ≠ Jumped me.
Proof.
  intros Hf Hold. destruct fuel as [|fuel]; [lia|].
  rewrite throw_unfold by lia. simpl.
  destruct old as [b|]; simpl; [congruence|].
  apply unhandled_never_jumps. lia.
Qed.

Lemma hooked_hooks (p : fnptr) (st : state) :
  except_on_throw (hooked code p st) = except_on_throw st
  ∧ except_on_unhandled (hooked code p st) = except_on_unhandled st
  ∧ except_on_unexpected (hooked code p st) = except_on_unexpected st.
Proof.
  unfold hooked. case_decide; [done|].
  destruct (hooks_log p (push_context st)) as [es ->]. done.
Qed.


Lemma select_passes_over (tag : string) (st : state) (pre rest : list clause) :
  current_id st = Some tag → Forall (passes_over tag) pre →
  select_clause 1%Z 1%Z st (pre ++ rest) = select_clause 1%Z 1%Z st rest.
Proof.
  intros Hid Hpre. induction Hpre as [|[T h|h|h] pre Hc _ IH]; simpl in *; try done.
  unfold __except_personality. by rewrite Hid, Hc.
Qed.

Lemma take_memcpy (cur v : list byte) (n : nat) :
  length v = n → take n (memcpy cur v n) = v.
Proof.
  intros <-. unfold memcpy. rewrite firstn_all. by rewrite take_app_length.
Qed.

(** What a throw does inside a try scope. *)
Lemma throw_in_scope (fuel : nat) (T : ctype) (v : list byte) (st : state) (b : jmp_buf) :
  6 ≤ fuel → sizeof T ≤ EXCEPT_MAX_THROWABLE_SIZE → context st = Some b →
  __EXCEPT_THROW sizeof impl code fuel T v st
  = (hooked code (except_on_throw st)
       (recorded (Some (__EXCEPT_TYPE_NAME T)) (sizeof T) (value_copy impl InThrow T v) st),
     Jumped b).
Proof.
  intros Hf Hsz Hctx. unfold __EXCEPT_THROW. rewrite decide_True by done.
  destruct fuel as [|fuel]; [lia|]. rewrite throw_unfold by lia. simpl. by rewrite Hctx.
Qed.

(** ** Copies by value *)

Variable value_byte : ctype → nat → bool.

Lemma copies_values_size : copies_values impl value_byte → keeps_size impl.
Proof. intros H site T bytes. apply H. Qed.

Lemma same_value_trans (T : ctype) (a b c : list byte) :
  same_value value_byte T a b → same_value value_byte T b c → same_value value_byte T a c.
Proof.
  intros [Hl1 H1] [Hl2 H2]. split; [congruence|].
  intros i Hi. by rewrite H1, H2.
Qed.

Lemma same_value_no_padding (T : ctype) (a b : list byte) :
  (∀ i, i < length b → value_byte T i = true) → same_value value_byte T a b → a = b.
Proof.
  intros Hfull [Hlen H]. apply list_eq. intros i.
  destruct (decide (i < length b)) as [Hi|Hi]; [by apply H, Hfull|].
  rewrite !lookup_ge_None_2; [done|lia..].
Qed.



Lemma except_try_refines (fuel : nat) (try_body : body) (cs : list clause) (st : state) :
  7 ≤ fuel →
  context st ≠ Some (next_jmp_buf st) →
  (try_body (push_context st)).2 ≠ Broke →
  (∀ h st', first_finally cs = Some h → (h st').2 ≠ Broke) →
  (∀ st1, try_body (push_context st) = (st1, Jumped (next_jmp_buf st)) →
          is_Some (current_id st1)) →
  unexpected_stage_found sizeof impl (next_jmp_buf st) cs →
  __EXCEPT_TRY sizeof impl code fuel try_body cs st
  = spec_try sizeof impl (__except_throw sizeof impl code fuel None 0 [])
             (__except_unexpected sizeof impl code fuel) try_body cs st.
Proof.
  intros Hf Hfresh Hnb Hfin Hid Hesc. unfold __EXCEPT_TRY.
  apply try_block_refines_spec; try done; [lia|..].
  - intros st'. by apply rethrow_goes_outward.
  - intros st'. apply unexpected_never_jumps. lia.
Qed.

Lemma rethrow_in_scope (fuel : nat) (st : state) (b : jmp_buf) :
  6 ≤ fuel → context st = Some b →
  __except_throw sizeof impl code fuel None 0 [] st
  = (hooked code (except_on_throw st) st, Jumped b).
Proof.
  intros Hf Hctx. destruct fuel as [|fuel]; [lia|].
  rewrite throw_unfold by lia. simpl. by rewrite Hctx.
Qed.

Section Rethrow.
Variables (fuel : nat) (T : ctype) (v : list byte) (ec ef : list event).
Hypothesis enough_fuel : 7 ≤ fuel.
Hypothesis fits : sizeof T ≤ EXCEPT_MAX_THROWABLE_SIZE.
Hypothesis whole : length v = sizeof T.
Hypothesis sized : keeps_size impl.

Local Abbreviation block := (catch_and_rethrow sizeof impl code fuel T v ec ef).

(** The bytes that [throw(T, v)] stores in the record. *)
Local Abbreviation stored := (value_copy impl InThrow T v).

Lemma quiet_rethrow_clauses (me : jmp_buf) :
  unexpected_stage_found sizeof impl me
    [CATCH T (λ e, seq (emit ec) __EXCEPT_RETHROW); FINALLY (emit ef)].
Proof.
  apply quiet_clauses. intros c st0 st1 Hc Hr.
  apply elem_of_cons in Hc as [-> | Hc]; [by simpl in Hr|].
  apply list_elem_of_singleton in Hc as ->. by simpl in Hr.
Qed.

Lemma quiet_look_clause (me : jmp_buf) :
  unexpected_stage_found sizeof impl me [CATCH T look].
Proof.
  apply quiet_clauses. intros c st0 st1 Hc Hr.
  apply list_elem_of_singleton in Hc as ->. by simpl in Hr.
Qed.

Lemma catch_and_rethrow_propagates (st : state) (b : jmp_buf) :
  context st = Some b → b ≠ next_jmp_buf st →
  ∃ st' es1 es2,
    block st = (st', Jumped b)
    ∧ current_id st' = Some (__EXCEPT_TYPE_NAME T)
    ∧ take (sizeof T) (current_exception st') = stored
    ∧ context st' = Some b
    ∧ except_on_throw st' = except_on_throw st
    ∧ trace st' = trace st ++ es1 ++ ec ++ ef ++ es2.
Proof.
  intros Hctx Hb. unfold catch_and_rethrow.
  pose proof (throw_in_scope fuel T v (push_context st) (next_jmp_buf st)
                ltac:(lia) fits eq_refl) as Hthrow.
  set (st0 := recorded (Some (__EXCEPT_TYPE_NAME T)) (sizeof T) stored (push_context st))
    in Hthrow.
  destruct (hooked_trace (except_on_throw (push_context st)) st0) as [es1 Htr2].
  destruct (hooked_record (except_on_throw (push_context st)) st0) as [Hid2 Hex2].
  destruct (hooked_hooks (except_on_throw (push_context st)) st0) as (Hh2 & _ & _).
  set (st2 := hooked code (except_on_throw (push_context st)) st0) in *.
  assert (Hval : take (sizeof T) (current_exception st2) = stored).
  { rewrite Hex2. simpl. apply take_memcpy. by rewrite sized. }
  simpl in Hid2, Htr2, Hh2. clearbody st2. clear Hex2.
  rewrite except_try_refines; [|done|congruence|by rewrite Hthrow| | |].
  2:{ intros h st' [= <-]. done. }
  2:{ intros st1. rewrite Hthrow. intros [= <-]. by eexists. }
  2:{ apply quiet_rethrow_clauses. }
  unfold spec_try. rewrite Hthrow. rewrite decide_True by done.
  unfold spec_catch. rewrite Hid2.
  cbn [first_matching_catch].
  rewrite String.eqb_refl. unfold seq, emit, __EXCEPT_RETHROW.
  unfold spec_finally. cbn [first_finally]. unfold spec_propagate.
  rewrite rethrow_in_scope with (b := b) by (lia || done).
  match goal with
  | |- ∃ _ _ _, noreturn (hooked code ?p ?x, _) = _ ∧ _ =>
    destruct (hooked_trace p x) as [es2 Hes2];
    pose proof (hooked_record p x) as [Hid3 Hex3];
    pose proof (hooked_context p x) as Hc3;
    pose proof (hooked_hooks p x) as (Hh3 & _ & _)
  end.
  eexists _, es1, es2. split; [reflexivity|].
  rewrite Hid3, Hex3, Hc3, Hh3, Hes2. simpl.
  rewrite Hid2, Hval, Hh2, Htr2. rewrite <- !app_assoc. done.
Qed.


End Rethrow.

(** ** The type tag is never reset *)

Lemma land_state (me : jmp_buf) (stage : Z) (st : state) (o : outcome) :
  pass_state (land me stage st o) = st.
Proof. destruct o; simpl; try done. by case_decide. Qed.

Lemma logging_keeps_tag (p : fnptr) : keeps_tag (code p).
Proof. intros st Hid. by destruct (hooks_log p st) as [es ->]. Qed.

Section KeepsTag.
Variables (R U : body) (me : jmp_buf) (old : option jmp_buf)
          (try_body : body) (cs : list clause).
Hypothesis R_keeps : keeps_tag R.
Hypothesis U_keeps : keeps_tag U.
Hypothesis try_keeps : keeps_tag try_body.
Hypothesis clauses_keep : Forall clause_keeps_tag cs.

Lemma stage_pass_keeps_tag (ch : bool) (stage error : Z) (st : state) :
  is_Some (current_id st) →
  is_Some (current_id
             (pass_state (stage_pass sizeof impl R U me old try_body cs ch stage error st))).
Proof.
  intros Hid. unfold stage_pass. cbv zeta.
  destruct (stage =? __EXCEPT_STAGE_PROPAGATE)%Z.
  { destruct (negb _); [|done].
    pose proof (R_keeps (set_context old st) Hid) as H.
    destruct (R (set_context old st)) as [st2 o]. by rewrite land_state. }
  destruct (stage =? __EXCEPT_STAGE_UNEXPECTED)%Z.
  { pose proof (U_keeps st Hid) as H.
    destruct (U st) as [st2 o]. by rewrite land_state. }
  destruct (_ && _).
  { pose proof (try_keeps st Hid) as H.
    destruct (try_body st) as [st2 o]. destruct o; try done; by rewrite land_state. }
  destruct (select_clause stage error st cs) as [[c|]|] eqn:E; [|done|done].
  apply select_clause_elem in E.
  pose proof (proj1 (Forall_forall _ _) clauses_keep c E) as Hc.
  destruct c as [T h|h|h]; simpl in Hc.
  - pose proof (Hc (catch_variable sizeof impl T st) st Hid) as H.
    destruct (h _ st) as [st2 o]. destruct o; try done; by rewrite land_state.
  - pose proof (Hc st Hid) as H.
    destruct (h st) as [st2 o]. destruct o; try done; by rewrite land_state.
  - pose proof (Hc st Hid) as H.
    destruct (h st) as [st2 o]. destruct o; try done; by rewrite land_state.
Qed.

Lemma stage_loop_keeps_tag (fuel : nat) : ∀ (ch : bool) (stage error : Z) (st : state),
  is_Some (current_id st) →
  is_Some (current_id (stage_loop sizeof impl R U me old try_body cs fuel ch stage error st).1).
Proof.
  induction fuel as [|fuel IH]; intros ch stage error st Hid; [done|].
  cbn [stage_loop]. destruct (stage <? 4)%Z; [|done].
  pose proof (stage_pass_keeps_tag ch stage error st Hid) as H.
  destruct (stage_pass _ _ _ _ _ _ _ _ _ _ _ _) as [s e st'|s e st'|st' o]; simpl in H; auto.
Qed.

End KeepsTag.

Lemma try_block_keeps_tag (R U try_body : body) (cs : list clause) (fuel : nat) :
  keeps_tag R → keeps_tag U → keeps_tag try_body → Forall clause_keeps_tag cs →
  keeps_tag (try_block sizeof impl R U fuel try_body cs).
Proof.
  intros HR HU Ht Hcs st Hid. unfold try_block. by apply stage_loop_keeps_tag.
Qed.

Lemma engine_keeps_tag (fuel : nat) :
  (∀ id n v, keeps_tag (__except_throw sizeof impl code fuel id n v))
  ∧ keeps_tag (__except_unhandled sizeof impl code fuel)
  ∧ keeps_tag (__except_unexpected sizeof impl code fuel).
Proof.
  induction fuel as [|fuel (IHt & IHh & IHu)]; [by repeat split; intros; intros st Hid|].
  assert (Hhook : ∀ p k, keeps_tag k →
            keeps_tag (try_block sizeof impl (__except_throw sizeof impl code fuel None 0 [])
                         (__except_unexpected sizeof impl code fuel) fuel (code p) [CATCH_ANY k])).
  { intros p k Hk.
    apply try_block_keeps_tag; auto using logging_keeps_tag; by apply Forall_singleton. }
  split; [|split].
  - intros id n v st Hid. cbn [__except_throw]. fold (recorded id n v st).
    assert (Hid1 : is_Some (current_id (recorded id n v st))) by (destruct id; [by eexists|done]).
    case_decide as Hnull.
    + destruct (context (recorded id n v st)); [done|]. by apply IHh.
    + pose proof (Hhook (except_on_throw (recorded id n v st)) _ IHu _ Hid1) as H.
      destruct (try_block _ _ _ _ _ _ _) as [st2 o]. simpl in H.
      destruct o; try done. destruct (context st2); [done|]. by apply IHh.
  - intros st Hid. cbn [__except_unhandled]. case_decide as Hnull.
    + destruct Hid as [i Hi]. rewrite Hi. simpl. by eexists.
    + pose proof (Hhook (except_on_unhandled st) _ IHu _ Hid) as H.
      destruct (try_block _ _ _ _ _ _ _) as [st2 o]. simpl in H. by destruct o.
  - intros st Hid. cbn [__except_unexpected]. case_decide as Hnull.
    + destruct Hid as [i Hi]. rewrite Hi. simpl. by eexists.
    + assert (Hk : keeps_tag (λ st', __except_unexpected sizeof impl code fuel
                                       (set_on_unexpected NULL st'))).
      { intros st' Hid'. by apply IHu. }
      pose proof (Hhook (except_on_unexpected st) _ Hk _ Hid) as H.
      destruct (try_block _ _ _ _ _ _ _) as [st2 o]. simpl in H. by destruct o.
Qed.

(** C8, amended.  No function of the library resets [current_id]: a try block
    whose bodies do not reset a tag that is set does not reset it either, and
    neither does a throw; a throw that compiles sets the tag of its type.  So
    the tag is non-empty from the first throw of the thread on, whether an
    exception is in flight or not.  In particular, when a catch clause has
    consumed [throw(T, v)] and the block has completed normally, the record
    still carries the tag of [T]. *)
Theorem type_tag_is_never_cleared :
  (∀ fuel try_body cs,
     keeps_tag try_body → Forall clause_keeps_tag cs →
     keeps_tag (__EXCEPT_TRY sizeof impl code fuel try_body cs))
  ∧ (∀ fuel T v, keeps_tag (__EXCEPT_THROW sizeof impl code fuel T v))
  ∧ (∀ fuel T v st,
       7 ≤ fuel → sizeof T ≤ EXCEPT_MAX_THROWABLE_SIZE →
       current_id (__EXCEPT_THROW sizeof impl code fuel T v st).1 = Some (__EXCEPT_TYPE_NAME T))
  ∧ (∀ fuel T v es st,
       7 ≤ fuel → sizeof T ≤ EXCEPT_MAX_THROWABLE_SIZE →
       context st ≠ Some (next_jmp_buf st) →
       ∃ st', __EXCEPT_TRY sizeof impl code fuel (__EXCEPT_THROW sizeof impl code fuel T v)
                [CATCH T (λ _, emit es)] st = (st', Normal)
              ∧ in_flight Normal = false
              ∧ current_id st' = Some (__EXCEPT_TYPE_NAME T)).
Proof.
  split; [|split; [|split]].
  - intros fuel try_body cs Ht Hcs. unfold __EXCEPT_TRY.
    apply try_block_keeps_tag; try done; apply engine_keeps_tag.
  - intros fuel T v st Hid. unfold __EXCEPT_THROW. case_decide; [|done].
    by apply engine_keeps_tag.
  - intros fuel T v st Hf Hsz. unfold __EXCEPT_THROW. rewrite decide_True by done.
    do 2 (destruct fuel as [|fuel]; [lia|]). rewrite throw_unfold by lia. cbv zeta.
    set (st2 := hooked code _ _).
    assert (Hid : current_id st2 = Some (__EXCEPT_TYPE_NAME T)).
    { unfold st2. by rewrite (proj1 (hooked_record _ _)). }
    clearbody st2. destruct (context st); [done|].
    rewrite unhandled_unfold by lia. rewrite Hid.
    case_decide; simpl; [done|]. by rewrite (proj1 (hooked_record _ _)).
  - intros fuel T v es st Hf Hsz Hfresh.
    pose proof (throw_in_scope fuel T v (push_context st) (next_jmp_buf st)
                  ltac:(lia) Hsz eq_refl) as Hthrow.
    pose proof (hooked_record (except_on_throw (push_context st))
                  (recorded (Some (__EXCEPT_TYPE_NAME T)) (sizeof T)
                     (value_copy impl InThrow T v) (push_context st)))
      as [Hid _].
    set (st2 := hooked code _ _) in Hthrow, Hid. simpl in Hid. clearbody st2.
    rewrite except_try_refines; [|done|done|by rewrite Hthrow| | |].
    2:{ intros h st' [=]. }
    2:{ intros st1. rewrite Hthrow. intros [= <-]. rewrite Hid. by eexists. }
    2:{ apply quiet_clauses. intros c st0 st1 Hc Hr.
        apply list_elem_of_singleton in Hc as ->. by simpl in Hr. }
    unfold spec_try. rewrite Hthrow, decide_True by done.
    unfold spec_catch. rewrite Hid. cbn [first_matching_catch].
    rewrite String.eqb_refl. unfold emit.
    unfold spec_finally. cbn [first_finally]. unfold spec_propagate.
    eexists. split; [reflexivity|]. split; [done|]. simpl. exact Hid.
Qed.

End Engine.

(** C8, as stated, fails: after
    [try { throw(int, EINVAL); } catch (int, e) { }] the block has completed
    normally, nothing is in flight, and [current_id] still is ["int"]. *)
Lemma tag_outlives_the_exception :
  let r := __EXCEPT_TRY example_sizeof example_impl example_code 7
             (__EXCEPT_THROW example_sizeof example_impl example_code 7 Tint einval)
             [CATCH Tint (λ _, emit [])] fresh_thread in
  ¬ (is_Some (current_id r.1) ↔ in_flight r.2 = true).
Proof.
  intros r [H _].
  assert (Hr : current_id r.1 = Some "int"%string ∧ r.2 = Normal) by (by vm_compute).
  destruct Hr as [Hid Ho]. rewrite Ho in H. simpl in H.
  assert (Hs : is_Some (current_id r.1)) by (rewrite Hid; by eexists).
  specialize (H Hs). discriminate.
Qed.


(** ** The example platform *)

Lemma example_hooks_log : ∀ p, logs_only (example_code p).
Proof. intros p st. by exists [Ran "hook"%string]. Qed.

(** [test_throw] and [test_no_throw] of test.c: what runs, and in which
    order. *)
Example test_throw_trace :
  trace (test_throw 7 fresh_thread).1
  = [Ran "try"; Ran "catch"; Saw (Some "int") einval; Ran "finally"]%string
  ∧ (test_throw 7 fresh_thread).2 = Normal.
Proof. by vm_compute. Qed.

Example test_no_throw_trace :
  trace (test_no_throw 7 fresh_thread).1 = [Ran "try"; Ran "finally"]%string
  ∧ (test_no_throw 7 fresh_thread).2 = Normal.
Proof. by vm_compute. Qed.


Lemma example_copies_values : copies_values example_impl example_value_byte.
Proof.
  intros site T bytes. split; simpl.
  - apply length_imap.
  - intros i Hi. rewrite list_lookup_imap, Hi. by destruct (bytes !! i).
Qed.




Lemma type_tag_is_never_cleared_witness :
  ∃ st', __EXCEPT_TRY example_sizeof example_impl example_code 7
           (__EXCEPT_THROW example_sizeof example_impl example_code 7 Tint einval)
           [CATCH Tint (λ _, emit [Ran "catch"%string])] fresh_thread = (st', Normal)
         ∧ in_flight Normal = false
         ∧ current_id st' = Some "int"%string.
Proof.
  apply (type_tag_is_never_cleared example_sizeof example_impl example_code example_hooks_log).
  - lia.
  - vm_compute. lia.
  - discriminate.
Defined.

End ExceptFacts.

(* ===================================================================== *)
(** * Further properties of libdefer *)
(* ===================================================================== *)

Module DeferMore.
Import Defer DeferFacts.

Lemma unwind_without_mark (error : Z) (recoverable : bool) (frames : list defer_frame_t) :
  Forall (λ f, can_recover f = false ∧ frame_wf f) frames →
  ∀ lg, unwind_frames error recoverable frames lg
    = (Thread [] (lg ++ (frames ≫= cleanup_calls)), Returned tt).
Proof.
  induction 1 as [|f frames [Hf Hwf] _ IH]; intros lg.
  - simpl. by rewrite app_nil_r.
  - cbn [unwind_frames]. rewrite Hf. cbn [andb].
    rewrite deregister_wf by done. simpl.
    rewrite IH. by rewrite <- app_assoc.
Qed.

(** X1. [panic(code)], [code != 0], on a thread none of whose frames has
    called [recover()]: every frame is deregistered, the innermost first,
    each running its pending cleanups most recent first; then the line with
    the name and description of the error and the "backtrace not supported"
    line go to stderr, and the thread exits with status [code].  No frame is
    left. *)
Theorem panic_without_recover_exits_thread (name desc : Z → string) (code : Z)
    (frames : list defer_frame_t) (lg : list event) :
  code ≠ 0%Z →
  Forall (λ f, can_recover f = false ∧ frame_wf f) frames →
  panic name desc code (Thread frames lg)
  = (Thread [] (lg ++ (frames ≫= cleanup_calls)
                   ++ [Stderr (panic_message name desc code);
                       Stderr (defer_message DEFER_BACKTRACE_NOTSUPP)]),
     ThreadExited code).
Proof.
  intros Hc Hfr. unfold panic, __defer_unwind. rewrite decide_False by done. simpl.
  rewrite unwind_without_mark by done.
  unfold __defer_msg, fputs_stderr. simpl. by rewrite <- !app_assoc.
Qed.

Lemma panic_without_recover_exits_thread_witness :
  panic example_error_name example_error_desc 22%Z
    (exec_ops example_error_name example_error_desc
       [OpEnter true; OpDefer 3 30%Z; OpEnter true; OpDefer 1 10%Z; OpDefer 2 20%Z]
       (Thread [] []))
  = (Thread [] [Called 2 20%Z; Called 1 10%Z; Called 3 30%Z;
                Stderr (panic_message example_error_name example_error_desc 22%Z);
                Stderr (defer_message DEFER_BACKTRACE_NOTSUPP)],
     ThreadExited 22%Z).
Proof.
  pose (inner := Frame (<[1:=Entry 2 20%Z]> (<[0:=Entry 1 10%Z]> (entries calloc_frame)))
                       None 2 false false).
  pose (outer := Frame (<[0:=Entry 3 30%Z]> (entries calloc_frame)) None 1 false false).
  change (panic example_error_name example_error_desc 22%Z (Thread [inner; outer] [])
          = (Thread [] ([] ++ ([inner; outer] ≫= cleanup_calls)
                          ++ [Stderr (panic_message example_error_name example_error_desc 22%Z);
                              Stderr (defer_message DEFER_BACKTRACE_NOTSUPP)]),
             ThreadExited 22%Z)).
  apply (panic_without_recover_exits_thread example_error_name example_error_desc
           22%Z [inner; outer] []).
  - lia.
  - repeat (constructor; [split; [reflexivity|];
                          split; [reflexivity|]; split; [vm_compute; lia|];
                          repeat constructor; simpl; discriminate|]).
    constructor.
Defined.

(** X2. The unwind of thread teardown, [__defer_thrd_fini], does not honour
    recovery marks: whether or not frames have called [recover()], every
    frame is deregistered, innermost first, each running its pending
    cleanups, and the call returns with no frame left. *)
Theorem thrd_fini_runs_every_cleanup (frames : list defer_frame_t) (lg : list event) :
  Forall frame_wf frames →
  __defer_thrd_fini (Thread frames lg)
  = (Thread [] (lg ++ (frames ≫= cleanup_calls)), Returned tt).
Proof.
  intros Hwf. unfold __defer_thrd_fini, __defer_unwind. simpl. by apply unwind_all.
Qed.

Lemma thrd_fini_runs_every_cleanup_witness :
  __defer_thrd_fini
    (exec_ops example_error_name example_error_desc
       [OpEnter true; OpRecover 7; OpDefer 3 30%Z; OpEnter true; OpDefer 1 10%Z]
       (Thread [] []))
  = (Thread [] [Called 1 10%Z; Called 3 30%Z], Returned tt).
Proof.
  pose (inner := Frame (<[0:=Entry 1 10%Z]> (entries calloc_frame)) None 1 false false).
  pose (outer := Frame (<[0:=Entry 3 30%Z]> (entries calloc_frame)) (Some 7) 1 true false).
  change (__defer_thrd_fini (Thread [inner; outer] [])
          = (Thread [] ([] ++ ([inner; outer] ≫= cleanup_calls)), Returned tt)).
  apply (thrd_fini_runs_every_cleanup [inner; outer] []).
  repeat (constructor; [split; [reflexivity|]; split; [vm_compute; lia|];
                        repeat constructor; simpl; discriminate|]).
  constructor.
Defined.

(** X3. A [defer] that succeeds returns its argument, puts the pair after
    the pairs the current frame already holds, and changes nothing else: not
    the earlier pairs, not the recovery mark or context of the frame, not the
    enclosing frames, not the log.  Deregistering the frame afterwards calls
    the new handler first. *)
Theorem defer_appends_pair (h : fnptr) (a : Z) (f : defer_frame_t)
    (link : list defer_frame_t) (lg : list event) :
  h ≠ NULL → frame_wf f → count f < DEFER_MAX →
  ∃ f', defer h a (Thread (f :: link) lg) = (Thread (f' :: link) lg, Returned a)
        ∧ pending f' = pending f ++ [Entry h a]
        ∧ can_recover f' = can_recover f ∧ context f' = context f
        ∧ __defer_frame_deregister (Thread (f' :: link) lg)
          = (Thread link (lg ++ Called h a :: cleanup_calls f), Returned tt).
Proof.
  intros Hh Hwf Hlt.
  destruct (defer_registers h a f link lg Hh Hwf Hlt) as (f' & E & Hwf' & Hp & _ & Hr & Hx).
  exists f'. repeat split; try done.
  rewrite deregister_wf by done. unfold cleanup_calls. rewrite Hp, reverse_snoc. done.
Qed.

Lemma defer_appends_pair_witness :
  ∃ f', defer 5 50%Z (Thread [calloc_frame] []) = (Thread [f'] [], Returned 50%Z)
        ∧ pending f' = pending calloc_frame ++ [Entry 5 50%Z]
        ∧ can_recover f' = can_recover calloc_frame ∧ context f' = context calloc_frame
        ∧ __defer_frame_deregister (Thread [f'] [])
          = (Thread [] ([] ++ Called 5 50%Z :: cleanup_calls calloc_frame), Returned tt).
Proof.
  apply (defer_appends_pair 5 50%Z calloc_frame [] []).
  - discriminate.
  - apply calloc_frame_wf.
  - vm_compute. lia.
Defined.

Lemma unwind_ok (error : Z) (recoverable : bool) (frames : list defer_frame_t) :
  Forall frame_ok frames →
  ∀ lg, Forall frame_ok (__defer_frame_current (unwind_frames error recoverable frames lg).1)
        ∧ (unwind_frames error recoverable frames lg).2 ≠ Undefined.
Proof.
  induction 1 as [|f frames [Hwf Hctx] Hrest IH]; intros lg; [by split|].
  cbn [unwind_frames]. destruct (can_recover f && recoverable) eqn:E.
  - apply andb_true_iff in E as [E _]. destruct (Hctx E) as [s ->]. simpl.
    split; [|done]. constructor; [by split|done].
  - rewrite deregister_wf by done. simpl. apply IH.
Qed.

Section Invariant.
Variables name desc : Z → string.

Lemma exec_op_ok (o : op) (t : thread) :
  Forall frame_ok (__defer_frame_current t) →
  Forall frame_ok (__defer_frame_current (exec_op name desc o t).1)
  ∧ ((exec_op name desc o t).2 = Undefined → __defer_frame_current t = []).
Proof.
  intros Hok. destruct t as [stack lg]. simpl in Hok.
  destruct o as [b| |h a|s|error]; simpl.
  - destruct b; simpl; (split; [|done]); [|done].
    constructor; [|done]. split; [apply calloc_frame_wf|done].
  - unfold __cyg_profile_func_exit, __defer_frame_deregister. simpl.
    destruct Hok as [|f link [Hwf Hctx] Hrest]; [by split|].
    rewrite run_cleanups_wf by done. by split.
  - unfold defer. destruct (decide (h = NULL)) as [|Hh]; simpl; [by split|].
    destruct Hok as [|f link [Hwf Hctx] Hrest]; simpl; [by split|].
    destruct (decide (count f = DEFER_MAX)) as [|Hc]; simpl.
    { split; [|done]. constructor; [by split|done]. }
    assert (Hlt : count f < DEFER_MAX) by (destruct Hwf as (_ & ? & _); lia).
    destruct (defer_registers h a f link lg Hh Hwf Hlt) as (f' & E & Hwf' & _ & _ & Hr & Hx).
    unfold defer in E. rewrite decide_False in E by done. simpl in E.
    rewrite decide_False in E by done. rewrite E. simpl.
    split; [|done]. constructor; [|done]. split; [done|]. by rewrite Hr, Hx.
  - destruct Hok as [|f link [Hwf Hctx] Hrest]; simpl; [by split|].
    split; [|done]. constructor; [|done]. split; [|by eexists].
    destruct Hwf as (Hl & Hc & Hp). by repeat split.
  - unfold panic. destruct (decide (error = 0%Z)); simpl; [by split|].
    unfold __defer_unwind. simpl.
    destruct (unwind_ok error true stack Hok lg) as [H1 H2].
    destruct (unwind_frames error true stack lg) as [t' r]. simpl in H1, H2.
    destruct r; simpl; by split.
Qed.

(** X4. The calls of libdefer keep every frame of the thread well formed:
    [count] never exceeds [DEFER_MAX], every pending slot holds a handler,
    and a marked frame holds a filled context.  On such a thread no call
    reads or writes outside [entries], calls through [NULL] or jumps to an
    unfilled context; undefined behaviour arises only from [defer] or
    [recover()] with no current frame at all.  In particular this holds
    throughout any sequence of calls made from the start of the thread. *)
Theorem calls_keep_frames_well_formed (ops : list op) (o : op) (t : thread) :
  Forall frame_ok (__defer_frame_current t) →
  let t' := exec_ops name desc ops t in
  Forall frame_ok (__defer_frame_current t')
  ∧ ((exec_op name desc o t').2 = Undefined → __defer_frame_current t' = []).
Proof.
  intros Hok.
  assert (H : Forall frame_ok (__defer_frame_current (exec_ops name desc ops t))).
  { revert t Hok. induction ops as [|o' ops IH]; intros t Hok; [done|].
    simpl. pose proof (exec_op_ok o' t Hok) as [H1 _].
    destruct (exec_op name desc o' t) as [t1 r]. simpl in H1.
    destruct (still_running r); [by apply IH|done]. }
  split; [done|]. by apply exec_op_ok.
Qed.

End Invariant.

Lemma calls_keep_frames_well_formed_witness :
  let t' := exec_ops example_error_name example_error_desc recover_then_two_defers
              (Thread [] []) in
  Forall frame_ok (__defer_frame_current t')
  ∧ ((exec_op example_error_name example_error_desc (OpPanic 22%Z) t').2 = Undefined
     → __defer_frame_current t' = []).
Proof.
  apply (calls_keep_frames_well_formed example_error_name example_error_desc
           recover_then_two_defers (OpPanic 22%Z) (Thread [] [])).
  constructor.
Defined.

End DeferMore.

(* ===================================================================== *)
(** * Further properties of libexcept *)
(* ===================================================================== *)

Module ExceptMore.
Import Except ExceptFacts.

(** One pass through the stage loop, on concrete stage numbers. *)
Ltac stage_consts :=
  unfold __EXCEPT_STAGE_TRY, __EXCEPT_STAGE_CATCH, __EXCEPT_STAGE_FINALLY,
         __EXCEPT_STAGE_PROPAGATE, __EXCEPT_STAGE_UNEXPECTED.
Lemma stage_loop_S (sizeof : ctype → nat) (impl : implementation) (R U : body)
    (me : jmp_buf) (old : option jmp_buf) (try_body : body) (cs : list clause)
    (fuel : nat) (ch : bool) (stage error : Z) (st : state) :
  stage_loop sizeof impl R U me old try_body cs (S fuel) ch stage error st
  = if (stage <? 4)%Z then
      match stage_pass sizeof impl R U me old try_body cs ch stage error st with
      | Next stage' error' st' =>
        stage_loop sizeof impl R U me old try_body cs fuel true (stage' + 1)%Z error' st'
      | Again stage' error' st' =>
        stage_loop sizeof impl R U me old try_body cs fuel ch stage' error' st'
      | Leave st' o => (st', o)
      end
    else (st, Normal).
Proof. reflexivity. Qed.

Ltac zred :=
  repeat match goal with
  | |- context [Z.ltb ?a ?b] =>
    let r := eval vm_compute in (Z.ltb a b) in
    match r with true => idtac | false => idtac end; change (Z.ltb a b) with r
  | |- context [Z.eqb ?a ?b] =>
    let r := eval vm_compute in (Z.eqb a b) in
    match r with true => idtac | false => idtac end; change (Z.eqb a b) with r
  | |- context [Z.add ?a ?b] =>
    let r := eval vm_compute in (Z.add a b) in
    match r with Z0 => idtac | Zpos _ => idtac | Zneg _ => idtac end;
    change (Z.add a b) with r
  end.

Ltac loop_pass :=
  cbv beta iota; stage_consts; zred; rewrite stage_loop_S; zred; cbv iota;
  try (unfold stage_pass at 1; cbv beta zeta; stage_consts; zred; cbn [andb negb];
       cbv iota).

Section Engine.
Variable sizeof : ctype → nat.
Variable impl : implementation.
Variable code : fnptr → body.

Lemma passes_over_no_catch (tag : string) (cs : list clause) (st : state) :
  current_id st = Some tag → Forall (passes_over tag) cs →
  select_clause 1%Z 1%Z st cs = Some None.
Proof.
  intros Hid Hcs. rewrite <- (app_nil_r cs).
  by rewrite (select_passes_over tag st cs [] Hid Hcs).
Qed.

Section Passes.
Variables (R U : body) (me : jmp_buf) (old : option jmp_buf)
          (try_body : body) (cs : list clause).
Local Abbreviation loop := (stage_loop sizeof impl R U me old try_body cs).

Lemma loop_after_throw (fuel : nat) (st st2 : state) :
  try_body st = (st2, Jumped me) →
  loop (S (S fuel)) false 0%Z 0%Z st = loop fuel true 1%Z 1%Z st2.
Proof.
  intros Htry. loop_pass. rewrite Htry. cbn [land]. rewrite decide_True by done.
  loop_pass. rewrite select_idle by auto. done.
Qed.

Lemma loop_finally_then_leave (fuel : nat) (ch : bool) (st : state) :
  3 ≤ fuel → (∀ h, first_finally cs = Some h → (h st).2 = Normal) →
  loop fuel ch 2%Z 0%Z st = (set_context old (after_finally cs st), Normal).
Proof.
  intros Hf Hfin. unfold after_finally. do 3 (destruct fuel as [|fuel]; [lia|]).
  loop_pass. rewrite select_finally_stage.
  destruct (first_finally cs) as [h|]; cbn [fmap option_fmap option_map].
  - specialize (Hfin h eq_refl). destruct (h st) as [st2 o]. simpl in Hfin. subst o.
    loop_pass. by loop_pass.
  - loop_pass. by loop_pass.
Qed.

Lemma loop_finally_then_rethrow (fuel : nat) (ch : bool) (st : state) :
  2 ≤ fuel → (∀ h, first_finally cs = Some h → (h st).2 = Normal) →
  (R (set_context old (after_finally cs st))).2 ≠ Jumped me →
  loop fuel ch 2%Z 1%Z st = noreturn (R (set_context old (after_finally cs st))).
Proof.
  intros Hf Hfin HR. unfold after_finally in *. do 2 (destruct fuel as [|fuel]; [lia|]).
  loop_pass. rewrite select_finally_stage.
  assert (Hland : ∀ st', (R (set_context old st')).2 ≠ Jumped me →
            (let (st2, o) := R (set_context old st') in
             land me (stage_after_jump impl 3%Z 3%Z st2) st2 o)
            = Leave (noreturn (R (set_context old st'))).1 (noreturn (R (set_context old st'))).2).
  { intros st' H. destruct (R (set_context old st')) as [s o]. simpl in *.
    destruct o; simpl; try done. by rewrite decide_False by congruence. }
  destruct (first_finally cs) as [h|]; cbn [fmap option_fmap option_map].
  - specialize (Hfin h eq_refl). destruct (h st) as [st2 o]. simpl in Hfin, HR. subst o.
    loop_pass. rewrite Hland by done. by destruct (noreturn _).
  - loop_pass. rewrite Hland by done. by destruct (noreturn _).
Qed.

Lemma loop_escape (fuel : nat) (ch : bool) (error : Z) (st : state) :
  1 ≤ fuel → (U st).2 ≠ Jumped me →
  loop fuel ch (-1)%Z error st = noreturn (U st).
Proof.
  intros Hf HU. destruct fuel as [|fuel]; [lia|]. loop_pass.
  destruct (U st) as [s o]. simpl in *.
  destruct o; simpl; try done. by rewrite decide_False by congruence.
Qed.

End Passes.

Lemma try_block_without_throw (R U : body) (fuel : nat) (try_body : body)
    (cs : list clause) (st st1 : state) :
  5 ≤ fuel →
  try_body (push_context st) = (st1, Normal) →
  (∀ h, first_finally cs = Some h → (h st1).2 = Normal) →
  try_block sizeof impl R U fuel try_body cs st
  = (set_context (context st) (after_finally cs st1), Normal).
Proof.
  intros Hf Htry Hfin. unfold try_block, after_finally.
  do 5 (destruct fuel as [|fuel]; [lia|]).
  loop_pass. rewrite Htry.
  loop_pass. rewrite select_idle by auto.
  loop_pass. rewrite select_finally_stage.
  destruct (first_finally cs) as [h|]; cbn [fmap option_fmap option_map].
  - specialize (Hfin h eq_refl). destruct (h st1) as [st2 o]. simpl in Hfin. subst o.
    loop_pass. by loop_pass.
  - loop_pass. by loop_pass.
Qed.

(** X5. A try block whose body completes without a throw: no catch body
    runs, the finally body (when there is one) runs once, the scope is
    popped, and the block completes normally.  The library functions are not
    called at all, so this holds whatever hooks are installed. *)
Theorem try_without_throw_skips_catch (fuel : nat) (try_body : body)
    (cs : list clause) (st st1 : state) :
  5 ≤ fuel →
  try_body (push_context st) = (st1, Normal) →
  (∀ h, first_finally cs = Some h → (h st1).2 = Normal) →
  __EXCEPT_TRY sizeof impl code fuel try_body cs st
  = (set_context (context st) (after_finally cs st1), Normal).
Proof.
  intros Hf Htry Hfin. unfold __EXCEPT_TRY. by apply try_block_without_throw.
Qed.

(** X12. An exception of any type that reaches a [catch_any] clause (the
    clauses declared before it are finally clauses or catch clauses for other
    types) is taken by it: its body runs, the exception is consumed, the
    finally clause runs, and the block completes normally with the scope
    popped.  Catch clauses declared after the [catch_any], also one for the
    very type that was thrown, never run. *)
Theorem catch_any_takes_every_exception (fuel : nat) (try_body h : body)
    (pre post : list clause) (tag : string) (st st2 st3 : state) :
  6 ≤ fuel →
  try_body (push_context st) = (st2, Jumped (next_jmp_buf st)) →
  current_id st2 = Some tag → Forall (passes_over tag) pre →
  h st2 = (st3, Normal) →
  (∀ hf, first_finally (pre ++ CATCH_ANY h :: post) = Some hf → (hf st3).2 = Normal) →
  __EXCEPT_TRY sizeof impl code fuel try_body (pre ++ CATCH_ANY h :: post) st
  = (set_context (context st) (after_finally (pre ++ CATCH_ANY h :: post) st3), Normal).
Proof.
  intros Hf Htry Hid Hpre Hh Hfin. unfold __EXCEPT_TRY, try_block.
  do 3 (destruct fuel as [|fuel]; [lia|]).
  rewrite (loop_after_throw _ _ _ _ _ _ _ _ st2) by done.
  loop_pass. rewrite (select_passes_over tag) by done.
  cbn [select_clause]. stage_consts. simpl Z.eqb. cbn [andb negb]. cbv iota.
  rewrite Hh. zred.
  by rewrite loop_finally_then_leave by (lia || done).
Qed.

Lemma caught_is_consumed (fuel : nat) (try_body : body) (T : ctype)
    (h : list byte → body) (pre post : list clause) (st st2 st3 : state) :
  6 ≤ fuel →
  try_body (push_context st) = (st2, Jumped (next_jmp_buf st)) →
  current_id st2 = Some (__EXCEPT_TYPE_NAME T) →
  Forall (passes_over (__EXCEPT_TYPE_NAME T)) pre →
  h (catch_variable sizeof impl T st2) st2 = (st3, Normal) →
  (∀ hf, first_finally (pre ++ CATCH T h :: post) = Some hf → (hf st3).2 = Normal) →
  __EXCEPT_TRY sizeof impl code fuel try_body (pre ++ CATCH T h :: post) st
  = (set_context (context st) (after_finally (pre ++ CATCH T h :: post) st3), Normal).
Proof.
  intros Hf Htry Hid Hpre Hh Hfin. unfold __EXCEPT_TRY, try_block.
  do 3 (destruct fuel as [|fuel]; [lia|]).
  rewrite (loop_after_throw _ _ _ _ _ _ _ _ st2) by done.
  loop_pass. rewrite (select_passes_over (__EXCEPT_TYPE_NAME T)) by done.
  cbn [select_clause]. stage_consts. simpl Z.eqb. cbn [andb negb]. cbv iota.
  unfold __except_personality. rewrite Hid, String.eqb_refl.
  rewrite Hh. zred.
  by rewrite loop_finally_then_leave by (lia || done).
Qed.

(** X13. An exception that reaches a [catch] clause for its type (the
    clauses before it pass it over): the body runs with the thrown value,
    the exception is consumed and not thrown on, the finally clause runs, and
    the block completes normally with the scope popped. *)
Theorem caught_exception_is_consumed (fuel : nat) (try_body : body) (T : ctype)
    (h : list byte → body) (pre post : list clause) (st st2 st3 : state) :
  6 ≤ fuel →
  try_body (push_context st) = (st2, Jumped (next_jmp_buf st)) →
  current_id st2 = Some (__EXCEPT_TYPE_NAME T) →
  Forall (passes_over (__EXCEPT_TYPE_NAME T)) pre →
  h (catch_variable sizeof impl T st2) st2 = (st3, Normal) →
  (∀ hf, first_finally (pre ++ CATCH T h :: post) = Some hf → (hf st3).2 = Normal) →
  __EXCEPT_TRY sizeof impl code fuel try_body (pre ++ CATCH T h :: post) st
  = (set_context (context st) (after_finally (pre ++ CATCH T h :: post) st3), Normal).
Proof. apply caught_is_consumed. Qed.

Lemma unexpected_S (fuel : nat) (st : state) :
  __except_unexpected sizeof impl code (S fuel) st
  = let r := if decide (except_on_unexpected st = NULL) then
               match current_id st with
               | Some i => (fprintf_stderr (unexpected_message i) st, Normal)
               | None => (st, Undefined)
               end
             else try_block sizeof impl (__except_throw sizeof impl code fuel None 0 [])
                            (__except_unexpected sizeof impl code fuel) fuel
                            (code (except_on_unexpected st))
                            [CATCH_ANY (λ st', __except_unexpected sizeof impl code fuel
                                                 (set_on_unexpected NULL st'))] st in
    match r with
    | (st1, Normal) => (st1, ThreadExited EXIT_FAILURE)
    | _ => r
    end.
Proof. reflexivity. Qed.

Lemma throw_S (fuel : nat) (id : option string) (n : nat) (v : list byte) (st : state) :
  __except_throw sizeof impl code (S fuel) id n v st
  = let st1 := recorded id n v st in
    let r := if decide (except_on_throw st1 = NULL) then (st1, Normal)
             else try_block sizeof impl (__except_throw sizeof impl code fuel None 0 [])
                            (__except_unexpected sizeof impl code fuel) fuel
                            (code (except_on_throw st1))
                            [CATCH_ANY (__except_unexpected sizeof impl code fuel)] st1 in
    match r with
    | (st2, Normal) =>
      match context st2 with
      | Some b => (st2, Jumped b)
      | None => __except_unhandled sizeof impl code fuel st2
      end
    | _ => r
    end.
Proof. reflexivity. Qed.

(** The try block around a hook, when the hook throws: the [catch_any]
    clause runs, and what it ends with ends the block. *)
Lemma hook_try_raises (R U k : body) (fuel : nat) (p : fnptr) (st st1 st2 : state) (c : Z) :
  3 ≤ fuel →
  code p (push_context st) = (st1, Jumped (next_jmp_buf st)) →
  k st1 = (st2, ThreadExited c) →
  try_block sizeof impl R U fuel (code p) [CATCH_ANY k] st = (st2, ThreadExited c).
Proof.
  intros Hf Hp Hk. unfold try_block. do 3 (destruct fuel as [|fuel]; [lia|]).
  rewrite (loop_after_throw _ _ _ _ _ _ _ _ st1) by done.
  loop_pass. cbn [select_clause]. stage_consts. zred. cbn [andb negb]. cbv iota.
  by rewrite Hk.
Qed.


(** An exception that comes out of the on-throw hook, as a jump to the scope
    the library runs the hook in, is handed to [__except_unexpected]. *)
Lemma exception_out_of_on_throw_hook (fuel : nat) (id : option string) (n : nat)
    (v : list byte) (st st2 : state) (tag : string) :
  4 ≤ fuel →
  except_on_throw st ≠ NULL →
  code (except_on_throw st) (push_context (recorded id n v st))
    = (st2, Jumped (next_jmp_buf st)) →
  current_id st2 = Some tag → except_on_unexpected st2 = NULL →
  __except_throw sizeof impl code fuel id n v st
  = (fprintf_stderr (unexpected_message tag) st2, ThreadExited EXIT_FAILURE).
Proof.
  intros Hf Hhook Hp Hid Hun.
  assert (Hh : except_on_throw (recorded id n v st) = except_on_throw st) by by destruct id.
  assert (Hn : next_jmp_buf (recorded id n v st) = next_jmp_buf st) by by destruct id.
  destruct fuel as [|fuel]; [lia|]. rewrite throw_S. cbv zeta.
  rewrite Hh, decide_False by done.
  rewrite (hook_try_raises _ _ _ fuel _ (recorded id n v st) st2
             (fprintf_stderr (unexpected_message tag) st2) EXIT_FAILURE);
    [done|lia|by rewrite Hn|].
  destruct fuel as [|fuel]; [lia|]. rewrite unexpected_S. cbv zeta.
  rewrite decide_True by done. by rewrite Hid.
Qed.

(** X14. The canonical names that [__EXCEPT_TYPE_NAME] gives to the scalar
    types are pairwise different, so a [catch] clause for one scalar type
    never takes an exception of another scalar type: the search goes on with
    the clauses after it. *)
Theorem scalar_type_tags_are_distinct (T1 T2 : ctype) (h : list byte → body)
    (cs : list clause) (st : state) :
  (∀ s, T1 ≠ Tnamed s) → (∀ s, T2 ≠ Tnamed s) → T1 ≠ T2 →
  current_id st = Some (__EXCEPT_TYPE_NAME T2) →
  __EXCEPT_TYPE_NAME T1 ≠ __EXCEPT_TYPE_NAME T2
  ∧ select_clause 1%Z 1%Z st (CATCH T1 h :: cs) = select_clause 1%Z 1%Z st cs.
Proof.
  intros H1 H2 Hne Hid.
  assert (Hn : __EXCEPT_TYPE_NAME T1 ≠ __EXCEPT_TYPE_NAME T2).
  { destruct T1; try (by destruct (H1 _ eq_refl));
      destruct T2; try (by destruct (H2 _ eq_refl)); try done; discriminate. }
  split; [done|]. cbn [select_clause]. stage_consts. zred. cbn [andb negb]. cbv iota.
  unfold __except_personality. rewrite Hid.
  destruct (String.eqb_spec (__EXCEPT_TYPE_NAME T2) (__EXCEPT_TYPE_NAME T1)); [congruence|done].
Qed.


(** A try body that the model cannot follow to its end. *)
Lemma try_block_out_of_fuel (R U : body) (fuel : nat) (try_body : body) (cs : list clause)
    (st : state) :
  (try_body (push_context st)).2 = OutOfFuel →
  (try_block sizeof impl R U fuel try_body cs st).2 = OutOfFuel.
Proof.
  intros H. unfold try_block. destruct fuel as [|fuel]; [done|].
  loop_pass. destruct (try_body (push_context st)) as [st1 o]. simpl in H. by subst o.
Qed.

Lemma select_finally_only (stage error : Z) (st : state) (cs : list clause) (h : body) :
  select_clause stage error st cs = Some (Some (FINALLY h)) →
  stage = __EXCEPT_STAGE_FINALLY ∧ first_finally cs = Some h.
Proof.
  induction cs as [|[T h'|h'|h'] cs IH]; simpl; [done|..].
  - destruct (_ && _); [|done]. by destruct (__except_personality _ _) as [[|]|].
  - by destruct (_ && _).
  - destruct (stage =? __EXCEPT_STAGE_FINALLY)%Z eqn:E.
    + intros [= ->]. split; [|done]. by apply Z.eqb_eq.
    + intros H. destruct (IH H) as [-> _]. done.
Qed.

Section Exit.
Variables (R U : body) (me : jmp_buf) (old : option jmp_buf)
          (try_body : body) (cs : list clause).
Hypothesis in_range : stage_in_range impl.
Hypothesis finally_no_break : ∀ h s, first_finally cs = Some h → (h s).2 ≠ Broke.

Lemma land_not_normal (stage : Z) (st st' : state) (o : outcome) :
  land me stage st o ≠ Leave st' Normal.
Proof. destruct o; simpl; try done. by case_decide. Qed.

(** Past the first pass, the loop ends normally only through the PROPAGATE
    stage, which has restored the context. *)
Lemma loop_normal_exit (fuel : nat) : ∀ (ch : bool) (stage error : Z) (st st' : state),
  (stage < 4)%Z → (error = 0 → 1 ≤ stage)%Z →
  stage_loop sizeof impl R U me old try_body cs fuel ch stage error st = (st', Normal) →
  context st' = old.
Proof.
  induction fuel as [|fuel IH]; intros ch stage error st st' Hlt Hinv; [done|].
  rewrite stage_loop_S. rewrite (proj2 (Z.ltb_lt _ _) Hlt).
  assert (Hfound : ∀ written s, (written < 4)%Z →
            ((if ch then stage_after_jump impl stage written s else written) < 4)%Z).
  { intros written s Hw. destruct ch; [by apply in_range|done]. }
  assert (Hland : ∀ s1 e s o,
            (s1 < 4)%Z →
            match land me s1 s o with
            | Next stage' error' st1 =>
              stage_loop sizeof impl R U me old try_body cs fuel true (stage' + 1)%Z error' st1
            | Again stage' error' st1 =>
              stage_loop sizeof impl R U me old try_body cs fuel e stage' error' st1
            | Leave st1 o' => (st1, o')
            end = (st', Normal) → context st' = old).
  { intros s1 e s o Hs1. destruct o; simpl; try done.
    case_decide; [|done]. apply IH; [done|lia]. }
  unfold stage_pass. cbv zeta.
  destruct (stage =? __EXCEPT_STAGE_PROPAGATE)%Z eqn:E3.
  { apply Z.eqb_eq in E3. subst stage. destruct (negb (error =? 0)%Z).
    - destruct (R (set_context old st)) as [st2 o]. apply Hland. by apply Hfound.
    - destruct fuel as [|fuel']; [done|]. rewrite stage_loop_S.
      change (__EXCEPT_STAGE_PROPAGATE + 1 <? 4)%Z with false. by intros [= <-]. }
  apply Z.eqb_neq in E3. unfold __EXCEPT_STAGE_PROPAGATE in E3.
  destruct (stage =? __EXCEPT_STAGE_UNEXPECTED)%Z.
  { destruct (U st) as [st1 o]. apply Hland. by apply Hfound. }
  destruct ((stage =? __EXCEPT_STAGE_TRY)%Z && (error =? 0)%Z) eqn:E0.
  { apply andb_true_iff in E0 as [E0 E1]. apply Z.eqb_eq in E0, E1.
    unfold __EXCEPT_STAGE_TRY in E0. lia. }
  destruct (select_clause stage error st cs) as [[[T h|h|h]|]|] eqn:Hsel; [| | | |done].
  - destruct (h (catch_variable sizeof impl T st) st) as [st1 o].
    destruct o; try (apply Hland; by apply in_range);
      apply IH; unfold __EXCEPT_STAGE_CATCH; lia.
  - destruct (h st) as [st1 o].
    destruct o; try (apply Hland; by apply in_range);
      apply IH; unfold __EXCEPT_STAGE_CATCH; lia.
  - apply select_finally_only in Hsel as [-> Hh].
    pose proof (finally_no_break h st Hh) as Hnb.
    destruct (h st) as [st1 o]. simpl in Hnb.
    destruct o; try done; try (apply Hland; by apply in_range).
    apply IH; unfold __EXCEPT_STAGE_FINALLY; lia.
  - apply IH; lia.
Qed.

Lemma try_block_normal_exit (fuel : nat) (st st' : state) :
  (try_body st).2 ≠ Broke →
  stage_loop sizeof impl R U me old try_body cs fuel false 0%Z 0%Z st = (st', Normal) →
  context st' = old.
Proof.
  intros Hnb. destruct fuel as [|fuel]; [done|]. loop_pass.
  destruct (try_body st) as [st1 o]. simpl in Hnb.
  destruct o; try done; simpl.
  - apply loop_normal_exit; lia.
  - case_decide; [|done]. apply loop_normal_exit; lia.
Qed.

End Exit.

(** A finally body that raises every time it runs, in a block whose stage
    variable is found at [FINALLY] after each of these jumps: the loop never
    gets past the finally stage. *)
Lemma loop_finally_forever (R U : body) (me : jmp_buf) (old : option jmp_buf)
    (try_body h : body) (cs : list clause) :
  first_finally cs = Some h →
  (∀ s, stage_after_jump impl __EXCEPT_STAGE_FINALLY __EXCEPT_STAGE_UNEXPECTED s
        = __EXCEPT_STAGE_FINALLY) →
  (∀ s, context s = Some me → ∃ s', h s = (s', Jumped me) ∧ context s' = Some me) →
  ∀ (fuel : nat) (ch : bool) (error : Z) (s : state),
    context s = Some me →
    (stage_loop sizeof impl R U me old try_body cs fuel ch 2%Z error s).2 = OutOfFuel.
Proof.
  intros Hh Hfound Hraise fuel. induction fuel as [|fuel IH]; intros ch error s Hctx; [done|].
  loop_pass. rewrite select_finally_stage, Hh. cbn [fmap option_fmap option_map].
  destruct (Hraise s Hctx) as (s' & -> & Hctx'). cbn [land].
  rewrite decide_True by done.
  unfold __EXCEPT_STAGE_FINALLY, __EXCEPT_STAGE_UNEXPECTED in Hfound.
  rewrite Hfound. by apply IH.
Qed.

(** The same when the jumps leave an earlier stage of the block in the
    variable and no catch clause takes the exception of the finally body: the
    loop comes round to the finally stage again and again. *)
Lemma loop_finally_cycle (R U : body) (me : jmp_buf) (old : option jmp_buf)
    (try_body h : body) (cs : list clause) (tag : string) :
  first_finally cs = Some h →
  Forall (passes_over tag) cs →
  (∀ s, (0 ≤ stage_after_jump impl __EXCEPT_STAGE_FINALLY __EXCEPT_STAGE_UNEXPECTED s
         ≤ 2)%Z) →
  (∀ s, context s = Some me →
        ∃ s', h s = (s', Jumped me) ∧ context s' = Some me ∧ current_id s' = Some tag) →
  ∀ (fuel : nat) (ch : bool) (stage : Z) (s : state),
    (0 ≤ stage ≤ 2)%Z → context s = Some me → current_id s = Some tag →
    (stage_loop sizeof impl R U me old try_body cs fuel ch stage 1%Z s).2 = OutOfFuel.
Proof.
  intros Hh Hcs Hfound Hraise fuel.
  induction fuel as [|fuel IH]; intros ch stage s Hstage Hctx Hid; [done|].
  assert (Hcase : stage = 0%Z ∨ stage = 1%Z ∨ stage = 2%Z) by lia.
  destruct Hcase as [-> | [-> | ->]].
  - loop_pass. rewrite select_idle by auto. zred. by apply IH.
  - loop_pass. rewrite (passes_over_no_catch tag) by done. zred. by apply IH.
  - loop_pass. rewrite select_finally_stage, Hh. cbn [fmap option_fmap option_map].
    destruct (Hraise s Hctx) as (s' & -> & Hctx' & Hid'). cbn [land].
    rewrite decide_True by done.
    unfold __EXCEPT_STAGE_FINALLY, __EXCEPT_STAGE_UNEXPECTED in Hfound.
    by apply IH.
Qed.

Hypothesis hooks_log : ∀ p, logs_only (code p).

(** A throw does not return to its caller. *)
Lemma throw_never_returns (fuel : nat) (id : option string) (n : nat) (v : list byte)
    (st : state) :
  7 ≤ fuel →
  noreturn (__except_throw sizeof impl code fuel id n v st)
  = __except_throw sizeof impl code fuel id n v st.
Proof.
  intros Hf. do 2 (destruct fuel as [|fuel]; [lia|]).
  rewrite (throw_unfold sizeof impl code hooks_log) by lia. cbv zeta.
  destruct (context st); [done|].
  rewrite (unhandled_unfold sizeof impl code hooks_log) by lia.
  case_decide; [|done]. by destruct (current_id _).
Qed.

(** X7. An exception that no catch clause of the block takes: the finally
    body still runs, once; then the scope is popped and the exception is
    thrown on to the enclosing scope [b], with the tag and the payload as the
    finally body left them. *)
Theorem unmatched_exception_propagates (fuel : nat) (try_body : body)
    (cs : list clause) (tag : string) (st st1 : state) (b : jmp_buf) :
  7 ≤ fuel →
  context st = Some b → b ≠ next_jmp_buf st →
  try_body (push_context st) = (st1, Jumped (next_jmp_buf st)) →
  current_id st1 = Some tag → Forall (passes_over tag) cs →
  (∀ h, first_finally cs = Some h → (h st1).2 = Normal) →
  let st2 := set_context (Some b) (after_finally cs st1) in
  let st3 := hooked code (except_on_throw st2) st2 in
  __EXCEPT_TRY sizeof impl code fuel try_body cs st = (st3, Jumped b)
  ∧ current_id st3 = current_id (after_finally cs st1)
  ∧ current_exception st3 = current_exception (after_finally cs st1).
Proof.
  intros Hf Hctx Hb Htry Hid Hcs Hfin st2 st3.
  assert (HR : __except_throw sizeof impl code fuel None 0 [] st2 = (st3, Jumped b)).
  { by apply rethrow_in_scope; [|lia|]. }
  split; [|unfold st3; by rewrite (proj1 (hooked_record _ hooks_log _ _)),
                                  (proj2 (hooked_record _ hooks_log _ _))].
  unfold __EXCEPT_TRY, try_block.
  do 3 (destruct fuel as [|fuel]; [lia|]).
  rewrite (loop_after_throw _ _ _ _ _ _ _ _ st1) by done.
  loop_pass. rewrite (passes_over_no_catch tag) by done. zred.
  rewrite loop_finally_then_rethrow; [|lia|done|]; rewrite Hctx; fold st2; rewrite HR.
  - done.
  - simpl. congruence.
Qed.


(** X9. An exception thrown by a finally body, here after a try body that
    completed, comes back to the block in the same way.  If the jump leaves
    in [__except_stage] the [UNEXPECTED] that was stored before the body, the
    exception ends in [__except_unexpected]: hook or default line, then the
    thread exits with [EXIT_FAILURE].  If the jumps leave a stage of the
    block there (the store did not reach the variable: [FINALLY], or an
    earlier stage while no catch clause takes the exception), the loop comes
    back to the finally stage, and a finally body that raises each time it
    runs keeps the block going round: the block never completes, whatever the
    fuel. *)
Theorem exception_from_finally_body (fuel : nat) (try_body h : body)
    (cs : list clause) (st st1 st2 : state) (tag : string) :
  try_body (push_context st) = (st1, Normal) →
  first_finally cs = Some h →
  h st1 = (st2, Jumped (next_jmp_buf st)) →
  current_id st2 = Some tag →
  let me := next_jmp_buf st in
  let found := stage_after_jump impl __EXCEPT_STAGE_FINALLY __EXCEPT_STAGE_UNEXPECTED in
  (7 ≤ fuel → found st2 = __EXCEPT_STAGE_UNEXPECTED →
   __EXCEPT_TRY sizeof impl code fuel try_body cs st
   = (if decide (except_on_unexpected st2 = NULL)
      then fprintf_stderr (unexpected_message tag) st2
      else hooked code (except_on_unexpected st2) st2,
      ThreadExited EXIT_FAILURE))
  ∧ ((∀ s, found s = __EXCEPT_STAGE_FINALLY)
     ∨ (∀ s, __EXCEPT_STAGE_TRY ≤ found s ≤ __EXCEPT_STAGE_FINALLY)%Z
       ∧ Forall (passes_over tag) cs →
     context st2 = Some me →
     (∀ s, context s = Some me →
           ∃ s', h s = (s', Jumped me) ∧ context s' = Some me ∧ current_id s' = Some tag) →
     (__EXCEPT_TRY sizeof impl code fuel try_body cs st).2 = OutOfFuel).
Proof.
  intros Htry Hfin Hh Hid me found.
  assert (Hstart : ∀ f,
            stage_loop sizeof impl (__except_throw sizeof impl code fuel None 0 [])
              (__except_unexpected sizeof impl code fuel) me (context st)
              try_body cs (S (S (S f))) false 0%Z 0%Z (push_context st)
            = stage_loop sizeof impl (__except_throw sizeof impl code fuel None 0 [])
                (__except_unexpected sizeof impl code fuel) me (context st)
                try_body cs f true (found st2) 1%Z st2).
  { intros f. loop_pass. rewrite Htry.
    loop_pass. rewrite select_idle by auto.
    loop_pass. rewrite select_finally_stage, Hfin. cbn [fmap option_fmap option_map].
    rewrite Hh. cbn [land]. by rewrite decide_True by done. }
  split.
  - intros Hf Hfound. unfold __EXCEPT_TRY, try_block.
    assert (HU : __except_unexpected sizeof impl code fuel st2
                 = (if decide (except_on_unexpected st2 = NULL)
                    then fprintf_stderr (unexpected_message tag) st2
                    else hooked code (except_on_unexpected st2) st2,
                    ThreadExited EXIT_FAILURE)).
    { destruct fuel as [|f]; [lia|].
      rewrite (unexpected_unfold sizeof impl code hooks_log) by lia.
      rewrite Hid. by case_decide. }
    do 4 (destruct fuel as [|fuel]; [lia|]).
    unfold __EXCEPT_STAGE_TRY. fold me. rewrite Hstart, Hfound.
    rewrite loop_escape; [|lia|by rewrite HU]. by rewrite HU.
  - intros Hfound Hctx Hraise. unfold __EXCEPT_TRY, try_block.
    destruct fuel as [|[|[|f]]].
    + done.
    + loop_pass. by rewrite Htry.
    + loop_pass. rewrite Htry. loop_pass. by rewrite select_idle by auto.
    + unfold __EXCEPT_STAGE_TRY. fold me. rewrite Hstart.
      destruct Hfound as [Hfound | [Hfound Hcs]].
      * rewrite Hfound. apply (loop_finally_forever _ _ _ _ _ h); try done.
        intros s Hs. destruct (Hraise s Hs) as (s' & ? & ? & _). by exists s'.
      * by apply (loop_finally_cycle _ _ _ _ _ h cs tag).
Qed.

(** X6. Try scopes are strictly nested: whenever a block that follows the
    rules of except.h completes normally, [*__except_current_context()] is
    again what it was when the block was entered, whatever happened inside
    (nothing thrown, an exception caught, nested blocks, an exception raised
    by a catch or finally body), as long as a jump leaves in the stage
    variable a value below the bound of the loop. *)
Theorem completed_block_restores_context (fuel : nat) (try_body : body)
    (cs : list clause) (st st' : state) :
  (try_body (push_context st)).2 ≠ Broke →
  (∀ h s, first_finally cs = Some h → (h s).2 ≠ Broke) →
  stage_in_range impl →
  __EXCEPT_TRY sizeof impl code fuel try_body cs st = (st', Normal) →
  context st' = context st.
Proof.
  intros Hnb Hfin Hrange. unfold __EXCEPT_TRY, try_block.
  by apply try_block_normal_exit.
Qed.

End Engine.

(** ** A hook that throws *)

Lemma raising_hook_reenters (sizeof : ctype → nat) (impl : implementation) :
  sizeof Tint ≤ EXCEPT_MAX_THROWABLE_SIZE →
  ∀ (depth fuel : nat) (id : option string) (n : nat) (v : list byte) (st : state),
    except_on_throw st ≠ NULL →
    (__except_throw sizeof impl (raising_code sizeof impl depth) fuel id n v st).2 = OutOfFuel.
Proof.
  intros Hsz depth. induction depth as [|depth IH]; intros fuel id n v st Hhook;
    (destruct fuel as [|fuel]; [done|]); rewrite throw_S; cbv zeta;
    assert (Hh : except_on_throw (recorded id n v st) = except_on_throw st)
      by (by destruct id);
    rewrite Hh, decide_False by done.
  - match goal with
    | |- context [try_block ?s ?i ?R ?U ?f ?b ?cs ?x] =>
      pose proof (try_block_out_of_fuel s i R U f b cs x eq_refl) as H;
      destruct (try_block s i R U f b cs x) as [s' o]
    end.
    simpl in H. by subst o.
  - match goal with
    | |- context [try_block ?s ?i ?R ?U ?f ?b ?cs ?x] =>
      assert (H : (try_block s i R U f b cs x).2 = OutOfFuel);
      [|destruct (try_block s i R U f b cs x) as [s' o]]
    end.
    + apply try_block_out_of_fuel. cbn [raising_code]. unfold __EXCEPT_THROW.
      rewrite decide_True by done. apply IH. simpl. by rewrite Hh.
    + simpl in H. by subst o.
Qed.


(** ** On the example platform *)

Lemma try_without_throw_skips_catch_witness :
  let cs := [CATCH Tint look; FINALLY (emit [Ran "finally"%string])] in
  let st1 := (emit [Ran "try"%string] (push_context fresh_thread)).1 in
  __EXCEPT_TRY example_sizeof example_impl example_code 5 (emit [Ran "try"%string]) cs fresh_thread
  = (set_context (context fresh_thread) (after_finally cs st1), Normal).
Proof.
  intros cs st1.
  apply (try_without_throw_skips_catch example_sizeof example_impl example_code 5
           (emit [Ran "try"%string]) cs fresh_thread st1).
  - lia.
  - reflexivity.
  - intros h [= <-]. reflexivity.
Defined.

Lemma catch_any_takes_every_exception_witness :
  let try_body := __EXCEPT_THROW example_sizeof example_impl example_code 7 Tint einval in
  let any := emit [Ran "any"%string] in
  let cs := [CATCH Tlong look] ++ CATCH_ANY any :: [CATCH Tint look] in
  let st2 := (try_body (push_context fresh_thread)).1 in
  __EXCEPT_TRY example_sizeof example_impl example_code 7 try_body cs fresh_thread
  = (set_context (context fresh_thread) (after_finally cs (any st2).1), Normal).
Proof.
  intros try_body any cs st2.
  apply (catch_any_takes_every_exception example_sizeof example_impl example_code 7 try_body any
           [CATCH Tlong look] [CATCH Tint look] "int"%string fresh_thread st2 (any st2).1).
  - lia.
  - reflexivity.
  - reflexivity.
  - repeat constructor.
  - reflexivity.
  - intros hf [=].
Defined.

Lemma caught_exception_is_consumed_witness :
  let try_body := __EXCEPT_THROW example_sizeof example_impl example_code 7 Tint einval in
  let cs := [CATCH Tlong look] ++ CATCH Tint look :: [FINALLY (emit [Ran "finally"%string])] in
  let st2 := (try_body (push_context fresh_thread)).1 in
  let st3 := (look einval st2).1 in
  __EXCEPT_TRY example_sizeof example_impl example_code 7 try_body cs fresh_thread
  = (set_context (context fresh_thread) (after_finally cs st3), Normal).
Proof.
  intros try_body cs st2 st3.
  apply (caught_exception_is_consumed example_sizeof example_impl example_code 7 try_body Tint look
           [CATCH Tlong look] [FINALLY (emit [Ran "finally"%string])] fresh_thread st2 st3).
  - lia.
  - reflexivity.
  - reflexivity.
  - repeat constructor.
  - reflexivity.
  - intros hf [= <-]. reflexivity.
Defined.



Lemma scalar_type_tags_are_distinct_witness :
  let st := State (replicate 128 x00) (Some "long"%string) (Some 0) NULL NULL NULL 1 [] in
  __EXCEPT_TYPE_NAME Tint ≠ __EXCEPT_TYPE_NAME Tlong
  ∧ select_clause 1%Z 1%Z st (CATCH Tint look :: [CATCH Tlong look])
    = select_clause 1%Z 1%Z st [CATCH Tlong look].
Proof.
  intros st.
  apply (scalar_type_tags_are_distinct Tint Tlong look [CATCH Tlong look] st);
    try discriminate. reflexivity.
Defined.

Lemma unmatched_exception_propagates_witness :
  let try_body := __EXCEPT_THROW example_sizeof example_impl example_code 7 Tint einval in
  let cs := [CATCH Tlong look; FINALLY (emit [Ran "finally"%string])] in
  let st1 := (try_body (push_context thread_in_scope)).1 in
  let st2 := set_context (Some 0) (after_finally cs st1) in
  let st3 := hooked example_code (except_on_throw st2) st2 in
  __EXCEPT_TRY example_sizeof example_impl example_code 7 try_body cs thread_in_scope
  = (st3, Jumped 0)
  ∧ current_id st3 = current_id (after_finally cs st1)
  ∧ current_exception st3 = current_exception (after_finally cs st1).
Proof.
  intros try_body cs st1.
  apply (unmatched_exception_propagates example_sizeof example_impl example_code example_hooks_log
           7 try_body cs "int"%string thread_in_scope st1 0).
  - lia.
  - reflexivity.
  - discriminate.
  - reflexivity.
  - reflexivity.
  - repeat constructor.
  - intros h [= <-]. reflexivity.
Defined.


Lemma exception_from_finally_body_witness :
  let h := λ impl, __EXCEPT_THROW example_sizeof impl example_code 7 Tint einval in
  let st1 := (emit [Ran "try"%string] (push_context fresh_thread)).1 in
  __EXCEPT_TRY example_sizeof plain_impl example_code 7 (emit [Ran "try"%string])
    [CATCH Tint look; FINALLY (h plain_impl)] fresh_thread
  = (fprintf_stderr (unexpected_message "int") (h plain_impl st1).1, ThreadExited EXIT_FAILURE)
  ∧ (__EXCEPT_TRY example_sizeof example_impl example_code 40 (emit [Ran "try"%string])
       [CATCH Tint look; FINALLY (h example_impl)] fresh_thread).2 = OutOfFuel.
Proof.
  intros h st1. split.
  - destruct (exception_from_finally_body example_sizeof plain_impl example_code
                example_hooks_log 7 (emit [Ran "try"%string]) (h plain_impl)
                [CATCH Tint look; FINALLY (h plain_impl)] fresh_thread st1
                (h plain_impl st1).1 "int"%string) as [Ha _].
    + reflexivity.
    + reflexivity.
    + reflexivity.
    + reflexivity.
    + apply Ha; [lia|reflexivity].
  - destruct (exception_from_finally_body example_sizeof example_impl example_code
                example_hooks_log 40 (emit [Ran "try"%string]) (h example_impl)
                [CATCH Tint look; FINALLY (h example_impl)] fresh_thread st1
                (h example_impl st1).1 "int"%string) as [_ Hb].
    + reflexivity.
    + reflexivity.
    + reflexivity.
    + reflexivity.
    + apply Hb.
      * left. intros s. reflexivity.
      * reflexivity.
      * intros s Hs. eexists. split; [|split].
        -- apply (throw_in_scope example_sizeof example_impl example_code example_hooks_log
                    7 Tint einval s 0); [lia|vm_compute; lia|exact Hs].
        -- rewrite (hooked_context example_code). exact Hs.
        -- by rewrite (proj1 (hooked_record example_code example_hooks_log _ _)).
Defined.

Lemma completed_block_restores_context_witness :
  context (test_throw 7 thread_in_scope).1 = context thread_in_scope.
Proof.
  apply (completed_block_restores_context example_sizeof example_impl example_code 7
           (seq (emit [Ran "try"%string])
                (seq (__EXCEPT_THROW example_sizeof example_impl example_code 7 Tint einval)
                     (emit [Ran "assert(false)"%string])))
           [CATCH Tint (λ e, seq (emit [Ran "catch"%string]) (look e));
            FINALLY (emit [Ran "finally"%string])]
           thread_in_scope (test_throw 7 thread_in_scope).1).
  - vm_compute. discriminate.
  - intros h s [= <-]. discriminate.
  - intros began written s Hb Hw. exact Hb.
  - vm_compute. reflexivity.
Defined.

End ExceptMore.

(* ===================================================================== *)
(** * Properties of the signal translation *)
(* ===================================================================== *)

Module SigcatchFacts.
Import Except ExceptFacts ExceptMore Sigcatch.

Lemma seq_never_normal (b1 b2 : body) (st : state) :
  (∀ s, (b2 s).2 ≠ Normal) → (seq b1 b2 st).2 ≠ Normal.
Proof.
  intros H. unfold seq. destruct (b1 st) as [s o]. destruct o; simpl; try done.
Qed.

Lemma seq_skip (b : body) (st : state) : seq (λ s, (s, Normal)) b st = b st.
Proof. reflexivity. Qed.

Section Translator.
Variable sig : signal_h.
Variable sizeof : ctype → nat.
Variable impl : implementation.
Variable code : fnptr → body.
Variable object : string → Z → list byte.

Local Abbreviation handler := (__except_handle_signal sig sizeof impl code object).

(** X15. [__except_handle_signal] never returns to the code that was
    interrupted: for every signal number and every [siginfo_t] it ends in a
    throw (a jump to a try scope, or the end of the thread) or in [abort()].
    A signal it has no case for, it answers with [abort()] at once. *)
Theorem fault_handler_never_returns (fuel : nat) (signal : Z) (info : siginfo_t)
    (st : state) :
  (handler fuel signal info st).2 ≠ Normal
  ∧ (fault_of sig signal info = None → handler fuel signal info st = (st, Aborted)).
Proof.
  split.
  - assert (H4 : ∀ s, (case_SIGILL sig sizeof impl code object fuel info s).2 ≠ Normal).
    { intros s. by apply seq_never_normal. }
    assert (H3 : ∀ s, (case_SIGSEGV sig sizeof impl code object fuel info s).2 ≠ Normal).
    { intros s. by apply seq_never_normal. }
    assert (H2 : ∀ s, (case_SIGBUS sig sizeof impl code object fuel info s).2 ≠ Normal).
    { intros s. by apply seq_never_normal. }
    assert (H1 : ∀ s, (case_SIGFPE sig sizeof impl code object fuel info s).2 ≠ Normal).
    { intros s. by apply seq_never_normal. }
    unfold __except_handle_signal. repeat case_match; auto.
  - unfold fault_of, __except_handle_signal. repeat case_match; done.
Qed.

(** X17. The [SIGBUS] case has no [break]: a bus error that is not an
    alignment error ([si_code != BUS_ADRALN]) runs on into the [SIGSEGV]
    case, so it is reported exactly as a [SIGSEGV] with the same
    [siginfo_t] is, as an [access_violation_t]. *)
Theorem bus_error_falls_through_to_access_violation (fuel : nat) (info : siginfo_t)
    (st : state) :
  SIGBUS sig ≠ SIGFPE sig → SIGSEGV sig ≠ SIGFPE sig → SIGSEGV sig ≠ SIGBUS sig →
  si_code info ≠ BUS_ADRALN sig →
  handler fuel (SIGBUS sig) info st = handler fuel (SIGSEGV sig) info st.
Proof.
  intros H1 H2 H3 Hc. unfold __except_handle_signal.
  rewrite (proj2 (Z.eqb_neq _ _) H1), Z.eqb_refl.
  rewrite (proj2 (Z.eqb_neq _ _) H2), (proj2 (Z.eqb_neq _ _) H3), Z.eqb_refl.
  unfold case_SIGBUS. rewrite (proj2 (Z.eqb_neq _ _) Hc). apply seq_skip.
Qed.

(** X19. [except_enable_sigcatch] installs the handler of the library
    (with [SA_SIGINFO] and an empty mask) for [SIGILL], [SIGFPE], [SIGSEGV]
    and [SIGBUS] and leaves every other signal as it was;
    [except_disable_sigcatch] sets these four to [SIG_DFL] and leaves the
    others as they were.  Disabling does not bring back what a signal was set
    to before enabling: disable after enable is the same as disable alone.
    Enabling twice is the same as enabling once. *)
Theorem sigcatch_sets_four_dispositions (tbl : Z → disposition) (s : Z) :
  except_enable_sigcatch sig tbl s
    = (if decide (s ∈ translated_signals sig) then Translated (SA_SIGINFO sig) [] else tbl s)
  ∧ except_disable_sigcatch sig tbl s
    = (if decide (s ∈ translated_signals sig) then SIG_DFL else tbl s)
  ∧ except_disable_sigcatch sig (except_enable_sigcatch sig tbl) s
    = except_disable_sigcatch sig tbl s
  ∧ except_enable_sigcatch sig (except_enable_sigcatch sig tbl) s
    = except_enable_sigcatch sig tbl s.
Proof.
  unfold except_enable_sigcatch, except_disable_sigcatch, sigaction, translated_signals.
  assert (Hin : s ∈ [SIGILL sig; SIGFPE sig; SIGSEGV sig; SIGBUS sig]
                ↔ s = SIGILL sig ∨ s = SIGFPE sig ∨ s = SIGSEGV sig ∨ s = SIGBUS sig).
  { rewrite !elem_of_cons, elem_of_nil. tauto. }
  destruct (decide (s ∈ [SIGILL sig; SIGFPE sig; SIGSEGV sig; SIGBUS sig])) as [Hm|Hm];
    rewrite Hin in Hm; repeat split; repeat case_decide; try done; tauto.
Qed.

Hypothesis hooks_log : ∀ p, logs_only (code p).

(** X16. Inside a try scope, the handler turns a signal into a throw of the
    fault type that belongs to it: [SIGFPE] into [arithmetic_error_t] with
    the message for its [si_code], [SIGBUS] into [misaligned_access_error_t]
    or [access_violation_t], [SIGSEGV] into [access_violation_t], [SIGILL]
    into [stack_corruption_error_t] or [illegal_instruction_error_t]; the
    thrown struct carries that message and [si_addr], and control goes to the
    innermost try scope.  The fault structs are two pointers: a copy by value
    of one keeps all its bytes. *)
Theorem fault_is_thrown_as_typed_exception (fuel : nat) (signal : Z) (info : siginfo_t)
    (st : state) (b : jmp_buf) :
  6 ≤ fuel → context st = Some b →
  (∀ T msg, fault_of sig signal info = Some (T, msg) → sizeof T ≤ EXCEPT_MAX_THROWABLE_SIZE) →
  (∀ T msg, fault_of sig signal info = Some (T, msg) →
     value_copy impl InThrow T (object msg (si_addr info)) = object msg (si_addr info)) →
  handler fuel signal info st
  = match fault_of sig signal info with
    | Some (T, msg) =>
      (hooked code (except_on_throw st)
         (recorded (Some (__EXCEPT_TYPE_NAME T)) (sizeof T) (object msg (si_addr info)) st),
       Jumped b)
    | None => (st, Aborted)
    end.
Proof.
  intros Hf Hctx Hsz Hplain. unfold __except_handle_signal. unfold fault_of in *.
  unfold case_SIGFPE, case_SIGBUS, case_SIGSEGV, case_SIGILL, throw_fault.
  repeat case_match; simplify_eq; try done; unfold seq;
    try (rewrite (throw_in_scope sizeof impl code hooks_log) with (b := b)
           by (done || lia || eauto); by rewrite Hplain).
Qed.

(** X18. A fault signal that arrives while a try body runs is caught by a
    [catch] clause for its fault type like any thrown value: the body of the
    clause runs with the fault struct (message and address) bound to its
    variable, the exception is consumed, and the block completes normally.
    The fault structs are two pointers: a copy by value of one keeps all its
    bytes. *)
Theorem fault_in_try_body_is_caught (fuel : nat) (signal : Z) (info : siginfo_t)
    (T : ctype) (msg : string) (prefix : body) (h : list byte → body)
    (pre post : list clause) (st st1 st3 : state) :
  7 ≤ fuel →
  fault_of sig signal info = Some (T, msg) →
  sizeof T ≤ EXCEPT_MAX_THROWABLE_SIZE →
  length (object msg (si_addr info)) = sizeof T →
  (∀ site, value_copy impl site T (object msg (si_addr info)) = object msg (si_addr info)) →
  prefix (push_context st) = (st1, Normal) → context st1 = Some (next_jmp_buf st) →
  Forall (passes_over (__EXCEPT_TYPE_NAME T)) pre →
  h (object msg (si_addr info))
    (hooked code (except_on_throw st1)
       (recorded (Some (__EXCEPT_TYPE_NAME T)) (sizeof T) (object msg (si_addr info)) st1))
  = (st3, Normal) →
  (∀ hf, first_finally (pre ++ CATCH T h :: post) = Some hf → (hf st3).2 = Normal) →
  __EXCEPT_TRY sizeof impl code fuel (seq prefix (handler fuel signal info))
    (pre ++ CATCH T h :: post) st
  = (set_context (context st) (after_finally (pre ++ CATCH T h :: post) st3), Normal).
Proof.
  intros Hf Hfault Hsz Hlen Hplain Hpre Hctx Hpass Hh Hfin.
  set (st2 := hooked code (except_on_throw st1)
                (recorded (Some (__EXCEPT_TYPE_NAME T)) (sizeof T)
                   (object msg (si_addr info)) st1)) in *.
  assert (Hthrow : handler fuel signal info st1 = (st2, Jumped (next_jmp_buf st))).
  { unfold __except_handle_signal. unfold fault_of in Hfault.
    unfold case_SIGFPE, case_SIGBUS, case_SIGSEGV, case_SIGILL, throw_fault.
    repeat case_match; simplify_eq; unfold seq;
      rewrite (throw_in_scope sizeof impl code hooks_log) with (b := next_jmp_buf st)
        by (done || lia); by rewrite Hplain. }
  apply (caught_is_consumed sizeof impl code fuel _ T h pre post st st2 st3); try done; [lia|..].
  - unfold seq. by rewrite Hpre.
  - unfold st2. by rewrite (proj1 (hooked_record _ hooks_log _ _)).
  - unfold catch_variable, __except_current_exception, st2.
    rewrite (proj2 (hooked_record _ hooks_log _ _)). simpl.
    by rewrite take_memcpy, Hplain.
Qed.

End Translator.
(** ** On the example platform *)

Lemma bus_error_falls_through_to_access_violation_witness :
  __except_handle_signal example_signal_h example_sizeof example_impl example_code
    example_object 7 7%Z (SigInfo 2 4096) thread_in_scope
  = __except_handle_signal example_signal_h example_sizeof example_impl example_code
      example_object 7 11%Z (SigInfo 2 4096) thread_in_scope.
Proof.
  apply (bus_error_falls_through_to_access_violation example_signal_h example_sizeof
           example_impl example_code example_object 7 (SigInfo 2 4096) thread_in_scope);
    simpl; lia.
Defined.

Lemma fault_is_thrown_as_typed_exception_witness :
  __except_handle_signal example_signal_h example_sizeof example_impl example_code
    example_object 7 8%Z (SigInfo 1 4096) thread_in_scope
  = (hooked example_code (except_on_throw thread_in_scope)
       (recorded (Some "arithmetic_error_t"%string) 16
          (example_object "Integer division by zero." 4096) thread_in_scope),
     Jumped 0).
Proof.
  apply (fault_is_thrown_as_typed_exception example_signal_h example_sizeof example_impl
           example_code example_object example_hooks_log 7 8%Z (SigInfo 1 4096) thread_in_scope 0).
  - lia.
  - reflexivity.
  - intros T msg [= <- <-]. vm_compute. lia.
  - intros T msg [= <- <-]. reflexivity.
Defined.

Lemma fault_in_try_body_is_caught_witness :
  let msg := "Integer division by zero."%string in
  let cs := [] ++ CATCH arithmetic_error_t look :: [] in
  let st1 := (emit [Ran "try"%string] (push_context fresh_thread)).1 in
  let st3 := (look (example_object msg 4096)
                (hooked example_code (except_on_throw st1)
                   (recorded (Some "arithmetic_error_t"%string) 16
                      (example_object msg 4096) st1))).1 in
  __EXCEPT_TRY example_sizeof example_impl example_code 7
    (seq (emit [Ran "try"%string])
         (__except_handle_signal example_signal_h example_sizeof example_impl example_code
            example_object 7 8%Z (SigInfo 1 4096)))
    cs fresh_thread
  = (set_context (context fresh_thread) (after_finally cs st3), Normal).
Proof.
  intros msg cs st1 st3.
  apply (fault_in_try_body_is_caught example_signal_h example_sizeof example_impl example_code
           example_object example_hooks_log 7 8%Z (SigInfo 1 4096) arithmetic_error_t msg
           (emit [Ran "try"%string]) look [] [] fresh_thread st1 st3).
  - lia.
  - reflexivity.
  - vm_compute. lia.
  - reflexivity.
  - intros site. reflexivity.
  - reflexivity.
  - reflexivity.
  - constructor.
  - reflexivity.
  - intros hf [=].
Defined.

End SigcatchFacts.
